(** * Beat / downbeat data pipeline and dsTCN backbone: a shallow embedding

    Source files embedded here:
    - [retinanet/dataloader.py]: [collater], [BeatDataset.__len__],
      [BeatDataset.load_data] (target rendering and peak normalisation),
      [BeatDataset.load_annot], [BeatDataset.make_intervals] and the first
      augmentations of [BeatDataset.apply_augmentations];
    - [retinanet/dstcn.py]: the channel bookkeeping of [dsTCNModel.__init__]
      and [dsTCNBlock.__init__].

    Conventions.  Python integers are [Z].  A one-dimensional tensor is a
    list; tensor indices are [Z] because the source indexes with signed
    integers (negative indices wrap around).  The dense target is a float
    tensor that only ever holds the indicator values 0 and 1; its entries
    are modelled as [Z].  Audio samples are floats in the source and exact
    rationals ([Qc]) here.  Times, rates and positions that the source
    computes in binary64 and then truncates to integers are computed with
    the Standard Library's specification of IEEE 754 arithmetic
    ([spec_float] at precision 53).  Python exceptions are explicit: a
    function that can raise returns a [result]. *)

From Stdlib Require Import ZArith List String Ascii Bool Lia.
From Stdlib Require Import QArith Qcanon Qcabs Qround Sorted.
From Stdlib Require Import Floats.SpecFloat.
Import ListNotations.

Close Scope Qc_scope.
Close Scope Q_scope.
Open Scope Z_scope.

(** ** Exceptions *)

(** The Python exceptions the embedded code can raise.  [OutsideModel] is
    not a Python exception: it marks the places where the source continues
    with a value or a behaviour that the model does not represent (a NaN
    or an infinity, a fractional power, a numeric literal or a padding
    mode that is not evaluated here). *)
Inductive exn : Type :=
| ValueError
| IndexError
| ZeroDivisionError
| RuntimeError
| OutsideModel.

Inductive result (A : Type) : Type :=
| Ok (a : A)
| Raise (e : exn).

Arguments Ok {A} a.
Arguments Raise {A} e.

Definition bind {A B : Type} (m : result A) (k : A -> result B) : result B :=
  match m with
  | Ok a => k a
  | Raise e => Raise e
  end.

Notation "x <- m ;; k" := (bind m (fun x => k))
  (at level 61, m at next level, right associativity).

Definition len {A : Type} (l : list A) : Z := Z.of_nat (List.length l).

(** ** Tensor primitives used by the data loader *)

(** [torch.nonzero] on a one-dimensional tensor: the indices of the entries
    that are not zero, in scan order.  [nz] says which entries count as
    nonzero, so that the same scan serves float rows and boolean masks. *)
Fixpoint nonzero_from {A : Type} (nz : A -> bool) (i : Z) (row : list A)
  : list Z :=
  match row with
  | [] => []
  | x :: rest =>
      if nz x then i :: nonzero_from nz (i + 1) rest
      else nonzero_from nz (i + 1) rest
  end.

Definition nonzero (row : list Z) : list Z :=
  nonzero_from (fun x => negb (x =? 0)) 0 row.

Definition nonzero_mask (mask : list bool) : list Z :=
  nonzero_from (fun b => b) 0 mask.

(** [row[n] = v] for an index already known to be in range. *)
Fixpoint list_set {A : Type} (n : nat) (v : A) (row : list A) : list A :=
  match row, n with
  | [], _ => []
  | _ :: rest, O => v :: rest
  | x :: rest, S n' => x :: list_set n' v rest
  end.

(** Index normalisation of tensor indexing: an index in [[-n, n)] is
    accepted, a negative one counts from the end, anything else raises
    IndexError. *)
Definition norm_index (n i : Z) : result Z :=
  if (i <? - n) || (n <=? i) then Raise IndexError
  else Ok (if i <? 0 then i + n else i).

(** [row[idx] = v] where [idx] is a tensor of integer indices. *)
Fixpoint index_put (row : list Z) (idx : list Z) (v : Z)
  : result (list Z) :=
  match idx with
  | [] => Ok row
  | i :: rest =>
      j <- norm_index (len row) i ;;
      index_put (list_set (Z.to_nat j) v row) rest v
  end.

(** Bound of a Python slice [a:b] on a dimension of size [n]. *)
Definition slice_bound (n i : Z) : Z :=
  if i <? 0 then Z.max (i + n) 0 else Z.min i n.

(** [row[start:stop] = 0]. *)
Fixpoint zero_between {A : Type} (zero : A) (lo hi i : Z) (row : list A)
  : list A :=
  match row with
  | [] => []
  | x :: rest =>
      (if (lo <=? i) && (i <? hi) then zero else x)
        :: zero_between zero lo hi (i + 1) rest
  end.

Definition zero_slice {A : Type} (zero : A) (start stop : Z) (row : list A)
  : list A :=
  zero_between zero (slice_bound (len row) start)
               (slice_bound (len row) stop) 0 row.

Fixpoint map2 {A B C : Type} (f : A -> B -> C) (l1 : list A) (l2 : list B)
  : list C :=
  match l1, l2 with
  | a :: l1', b :: l2' => f a b :: map2 f l1' l2'
  | _, _ => []
  end.

(** [torch.zeros(n)] *)
Definition zeros (n : Z) : list Z := repeat 0 (Z.to_nat n).

(** ** Rational helpers *)

Definition Qc_of_Z (z : Z) : Qc := Q2Qc (inject_Z z).

Definition Qc_ltb (x y : Qc) : bool :=
  match Qccompare x y with Lt => true | _ => false end.

Definition Qc_eqb (x y : Qc) : bool := Qeq_bool (this x) (this y).

Definition Qc_max (x y : Qc) : Qc := if Qc_ltb x y then y else x.

(** [int(x)] and [astype(int)] on a float: truncation towards zero. *)
Definition Qc_trunc (x : Qc) : Z :=
  Z.quot (Qnum (this x)) (Zpos (Qden (this x))).

(** An audio tensor of shape (channels, samples). *)
Definition audio : Type := list (list Qc).

(** [audio.shape[-1]] *)
Definition audio_width (a : audio) : Z :=
  match a with
  | [] => 0
  | row :: _ => len row
  end.

(** ** Binary64 arithmetic

    Python floats and numpy float64 values are IEEE 754 binary64 numbers.
    The operations are those of [SpecFloat] at precision 53 and maximal
    exponent 1024, rounding to nearest, ties to even.  A result that is
    infinite or not a number is reported as [OutsideModel]; the floats that
    flow through the model are finite. *)

Definition prec : Z := 53.
Definition emax : Z := 1024.

Definition finite_or_raise (x : spec_float) : result spec_float :=
  match x with
  | S754_infinity _ | S754_nan => Raise OutsideModel
  | _ => Ok x
  end.

(** The exact value of a finite float. *)
Definition float_value (x : spec_float) : Qc :=
  match x with
  | S754_finite s m e =>
      let n := if s then Z.neg m else Z.pos m in
      if 0 <=? e then Qc_of_Z (n * 2 ^ e)
      else Q2Qc (Qmake n (Z.to_pos (2 ^ (- e))))
  | _ => Q2Qc 0
  end.

(** The conversion of an integer to a float.  An integer that is not a
    binary64 number would be rounded, and differently by Python's integer
    division and by numpy's conversion: it is not evaluated here. *)
Definition float_of_Z (z : Z) : result spec_float :=
  let x := binary_normalize prec emax z 0 false in
  if Qc_eqb (float_value x) (Qc_of_Z z) then finite_or_raise x
  else Raise OutsideModel.

(** Float division and multiplication.  A Python division by zero raises
    and a numpy one gives an infinity or a NaN; callers test for a zero
    divisor where the source can meet one. *)
Definition fdiv (x y : spec_float) : result spec_float :=
  finite_or_raise (SFdiv prec emax x y).

Definition fmul (x y : spec_float) : result spec_float :=
  finite_or_raise (SFmul prec emax x y).

(** The float of a Python number whose exact value is [q], an integer or a
    float.  A value that is not a binary64 number is outside the model. *)
Definition float_of_Qc (q : Qc) : result spec_float :=
  n <- float_of_Z (Qnum (this q)) ;;
  d <- float_of_Z (Zpos (Qden (this q))) ;;
  x <- fdiv n d ;;
  if Qc_eqb (float_value x) q then Ok x else Raise OutsideModel.

(** [int(x)] and [astype(int)] on a finite float. *)
Definition float_trunc (x : spec_float) : Z := Qc_trunc (float_value x).

(** A vectorised operation: the elementwise results, or the first
    failure. *)
Fixpoint map_result {A B : Type} (f : A -> result B) (l : list A)
  : result (list B) :=
  match l with
  | [] => Ok []
  | x :: rest =>
      y <- f x ;;
      ys <- map_result f rest ;;
      Ok (y :: ys)
  end.

(** ** The dense target *)

(** A 2 x N tensor: row 0 marks beats, row 1 marks downbeats. *)
Record target : Type := mkTarget {
  beats : list Z;
  downbeats : list Z
}.

(** [target.shape[-1]] *)
Definition target_width (t : target) : Z := len (beats t).

(** One row of the (k, 3) annotation tensor: start, end, class id. *)
Definition interval : Type := (Z * Z * Z)%type.

Definition class_id (iv : interval) : Z := snd iv.

Module BeatDataset.

(** The dataset identifiers that [__init__] accepts; any other raises
    ValueError at construction. *)
Inductive dataset_id : Type :=
| ballroom | hainsworth | gtzan | smc | beatles | carnatic | rwc_popular.

(** The attributes of a constructed [BeatDataset] that the embedded methods
    read. *)
Record t : Type := mk {
  audio_sample_rate : Qc;
  target_factor : Qc;
  dataset : dataset_id;
  subset : string;
  length : Z;
  examples_per_epoch : Z;
  audio_files : list string;
  pad_mode : string
}.

(** [self.target_sample_rate = audio_sample_rate / target_factor], computed
    by [__init__]. *)
Definition target_sample_rate (self : t) : result spec_float :=
  if Qc_eqb (target_factor self) 0%Qc then Raise ZeroDivisionError
  else
    sr <- float_of_Qc (audio_sample_rate self) ;;
    factor <- float_of_Qc (target_factor self) ;;
    fdiv sr factor.

(** [samples / self.audio_sample_rate]: a sample position in seconds. *)
Definition seconds (self : t) (samples : Z) : result spec_float :=
  n <- float_of_Z samples ;;
  sr <- float_of_Qc (audio_sample_rate self) ;;
  fdiv n sr.

(** ** Interval Builder: [BeatDataset.make_intervals] *)

(** [locations.size(dim=0)] after [torch.nonzero(...).squeeze()]: the
    (k, 1) index tensor keeps one dimension of size k unless k = 1, where
    [squeeze] leaves a zero-dimensional tensor and [size(dim=0)] raises
    IndexError. *)
Definition squeezed_size0 (locations : list Z) : result Z :=
  if len locations =? 1 then Raise IndexError else Ok (len locations).

Fixpoint enumerate_from {A : Type} (i : nat) (l : list A) : list (nat * A) :=
  match l with
  | [] => []
  | x :: rest => (i, x) :: enumerate_from (S i) rest
  end.

Definition enumerate {A : Type} (l : list A) : list (nat * A) :=
  enumerate_from 0 l.

(** The inner function of [make_intervals]: one row per element of
    [samples[:-1]], paired with its successor. *)
Definition make_interval_subset (samples : list Z) (cls : Z)
  : list interval :=
  map (fun '(beat_index, current_beat_location) =>
         let next_beat_location := nth (S beat_index) samples 0 in
         (current_beat_location, next_beat_location, cls))
      (enumerate (removelast samples)).

Definition make_intervals (t : target) : list interval :=
  let beat_locations := nonzero (beats t) in
  let downbeat_locations := nonzero (downbeats t) in
  let annotations : list interval := [] in
  let under_populated :=
    d <- squeezed_size0 downbeat_locations ;;
    if d <? 2 then Ok true
    else b <- squeezed_size0 beat_locations ;; Ok (b <? 2) in
  match under_populated with
  | Raise _ => annotations
  | Ok true => annotations
  | Ok false =>
      annotations
        ++ make_interval_subset downbeat_locations 0
        ++ make_interval_subset beat_locations 1
  end.

(** The rows of an annotation tensor that carry class [c]. *)
Definition of_class (c : Z) (ivs : list interval) : list interval :=
  filter (fun iv => class_id iv =? c) ivs.

(** ** [BeatDataset.__len__] *)

Definition __len__ (self : t) : Z :=
  if existsb (String.eqb (subset self))
             ["test"; "val"; "full-val"; "full-test"]%string
  then len (audio_files self)
  else examples_per_epoch self.

(** ** Augmentations: the first gated steps of [apply_augmentations]

    Each step is modelled as the body of its [if np.random.rand() < p]
    branch; the random draws made inside the branch are parameters. *)

(** "drop contiguous frames".  [start] is the value drawn by
    [np.random.randint(audio.shape[-1] - zero_size - 1)], which raises
    ValueError when its bound is not positive and otherwise draws from
    [[0, bound)].  [int(self.length * 0.1)] is the quotient of the length
    by ten, truncated: the double nearest to 0.1 exceeds 1/10 by less than
    one part in 10^16, so for lengths below 2^31 the rounded product never
    reaches the next integer. *)
Definition drop_contiguous_frames (self : t) (start : Z)
           (a : audio) (tgt : target) : result (audio * target) :=
  let zero_size := Z.quot (length self) 10 in
  if audio_width a - zero_size - 1 <=? 0 then Raise ValueError
  else
    let stop := start + zero_size in
    Ok (map (zero_slice 0%Qc start stop) a,
        mkTarget (zero_slice 0 start stop (beats tgt))
                 (zero_slice 0 start stop (downbeats tgt))).

(** "shift targets forward/back".  [nonzero(as_tuple=False)] on a row gives
    an index tensor of shape (k, 1), whose [shape[-1]] is 1, so
    [torch.normal(..., size=(1, 1))] draws ONE offset for the downbeats and
    ONE for the other beats, broadcast over all k indices by [+=].
    [dbeat_shift] and [beat_shift] are those two draws after [.long()]. *)
Definition shift_targets (dbeat_shift beat_shift : Z) (tgt : target)
  : result target :=
  let n := target_width tgt in
  let beat_ind :=
    nonzero_mask (map2 andb (map (fun x => x =? 1) (beats tgt))
                            (map (fun x => negb (x =? 1)) (downbeats tgt))) in
  let dbeat_ind := nonzero_mask (map (fun x => x =? 1) (downbeats tgt)) in
  let dbeat_ind := map (fun i => i + dbeat_shift) dbeat_ind in
  let beat_ind := map (fun i => i + beat_shift) beat_ind in
  let beat_ind := filter (fun i => i <? n) beat_ind in
  let dbeat_ind := filter (fun i => i <? n) dbeat_ind in
  row0 <- index_put (zeros n) beat_ind 1 ;;
  row0 <- index_put row0 dbeat_ind 1 ;;
  row1 <- index_put (zeros n) dbeat_ind 1 ;;
  Ok (mkTarget row0 row1).

(** ** Peak normalisation: [audio /= audio.abs().max()]

    [max] of an empty tensor raises RuntimeError.  A zero peak makes every
    float sample NaN or infinite, which the rational model does not
    represent. *)
Definition abs_max (a : audio) : result Qc :=
  match List.concat a with
  | [] => Raise RuntimeError
  | x :: rest => Ok (fold_left Qc_max (map Qcabs rest) (Qcabs x))
  end.

Definition peak_normalize (a : audio) : result audio :=
  m <- abs_max a ;;
  if Qc_eqb m 0%Qc then Raise OutsideModel
  else Ok (map (map (fun x => (x / m)%Qc)) a).

(** ** Target Renderer: the second half of [load_data]

    [n_audio] is [audio.shape[-1]]; [beat_samples] and [downbeat_samples]
    are the positions returned by [load_annot]. *)
Definition render_target (self : t) (n_audio : Z)
           (beat_samples downbeat_samples : list Z) : result target :=
  tsr <- target_sample_rate self ;;
  if Qc_eqb (audio_sample_rate self) 0%Qc then Raise ZeroDivisionError
  else
    beat_sec <- map_result (seconds self) beat_samples ;;
    downbeat_sec <- map_result (seconds self) downbeat_samples ;;
    t_sec <- seconds self n_audio ;;
    product <- fmul t_sec tsr ;;
    let N := float_trunc product + 1 in
    if N <? 0 then Raise RuntimeError
    else
      beat_samples <- map_result (fun s => fmul s tsr) beat_sec ;;
      downbeat_samples <- map_result (fun s => fmul s tsr) downbeat_sec ;;
      bound <- float_of_Z N ;;
      let below x := Qc_ltb (float_value x) (float_value bound) in
      let beat_samples := filter below beat_samples in
      let downbeat_samples := filter below downbeat_samples in
      let beat_samples := map float_trunc beat_samples in
      let downbeat_samples := map float_trunc downbeat_samples in
      row0 <- index_put (zeros N) beat_samples 1 ;;
      row1 <- index_put (zeros N) downbeat_samples 1 ;;
      Ok (mkTarget row0 row1).

(** ** Annotation Parser: [BeatDataset.load_annot]

    The file is given by the list of its lines, as [fp.readlines()] returns
    them. *)

Definition newline : ascii := "010"%char.
Definition tab : ascii := "009"%char.
Definition space : ascii := " "%char.

(** [line.strip('\n')] *)
Fixpoint lstrip_char (c : ascii) (l : list ascii) : list ascii :=
  match l with
  | x :: rest => if Ascii.eqb x c then lstrip_char c rest else l
  | [] => []
  end.

Definition strip_char (c : ascii) (l : list ascii) : list ascii :=
  rev (lstrip_char c (rev (lstrip_char c l))).

(** [line.replace(a, b)] for one-character strings *)
Definition replace_char (a b : ascii) (l : list ascii) : list ascii :=
  map (fun x => if Ascii.eqb x a then b else x) l.

(** [line.replace('  ', ' ')]: occurrences are replaced from the left and
    do not overlap. *)
Fixpoint replace_double_space (l : list ascii) : list ascii :=
  match l with
  | x :: ((y :: rest') as rest) =>
      if Ascii.eqb x space && Ascii.eqb y space
      then space :: replace_double_space rest'
      else x :: replace_double_space rest
  | _ => l
  end.

(** [line.split(sep)] for a one-character separator: always at least one
    field. *)
Fixpoint split_on (sep : ascii) (l : list ascii) : list (list ascii) :=
  match l with
  | [] => [[]]
  | x :: rest =>
      if Ascii.eqb x sep then [] :: split_on sep rest
      else match split_on sep rest with
           | field :: fields => (x :: field) :: fields
           | [] => [[x]]
           end
  end.

Definition is_whitespace (c : ascii) : bool :=
  let n := nat_of_ascii c in
  ((9 <=? n) && (n <=? 13))%nat || (n =? 32)%nat.

Definition strip_whitespace (l : list ascii) : list ascii :=
  let lstrip :=
    fix go (l : list ascii) : list ascii :=
      match l with
      | x :: rest => if is_whitespace x then go rest else l
      | [] => []
      end in
  rev (lstrip (rev (lstrip l))).

Definition digit_value (c : ascii) : option Z :=
  let n := nat_of_ascii c in
  if ((48 <=? n) && (n <=? 57))%nat then Some (Z.of_nat n - 48) else None.

(** The value of a run of decimal digits (0 for the empty run). *)
Fixpoint digits_value (acc : Z) (l : list ascii) : option Z :=
  match l with
  | [] => Some acc
  | c :: rest =>
      match digit_value c with
      | Some d => digits_value (10 * acc + d) rest
      | None => None
      end
  end.

Definition split_sign (l : list ascii) : Z * list ascii :=
  match l with
  | "-"%char :: rest => (-1, rest)
  | "+"%char :: rest => (1, rest)
  | _ => (1, l)
  end.

(** Literals that Python accepts but this model does not evaluate: digit
    group underscores, non-ASCII digits and, for floats, exponents and the
    words inf and nan. *)
Definition beyond_plain_literal (letters : bool) (l : list ascii) : bool :=
  existsb (fun c =>
             let n := nat_of_ascii c in
             (n =? 95)%nat || (128 <=? n)%nat
             || (letters && (((65 <=? n) && (n <=? 90))
                             || ((97 <=? n) && (n <=? 122))))%nat) l.

(** [int(s)] for a string [s]: surrounding whitespace, an optional sign and
    a nonempty run of digits. *)
Definition py_int (s : list ascii) : result Z :=
  let '(sign, body) := split_sign (strip_whitespace s) in
  match body, digits_value 0 body with
  | _ :: _, Some v => Ok (sign * v)
  | _, _ => if beyond_plain_literal false s then Raise OutsideModel
            else Raise ValueError
  end.

(** [float(s)] for a string [s]: surrounding whitespace, an optional sign,
    digits with an optional fraction; at least one digit.  The literal
    denotes [digits / 10 ^ scale]; when the digits are below 2^53 and the
    scale is at most 22 both are binary64 numbers and their quotient,
    rounded once, is the correctly rounded value that [float] returns.
    Longer literals are not evaluated here. *)
Definition decimal_literal (sign digits scale : Z) : result spec_float :=
  if (digits <? 2 ^ 53) && (scale <=? 22) then
    n <- float_of_Z (sign * digits) ;;
    d <- float_of_Z (10 ^ scale) ;;
    fdiv n d
  else Raise OutsideModel.

Definition py_float (s : list ascii) : result spec_float :=
  let '(sign, body) := split_sign (strip_whitespace s) in
  let failure :=
    if beyond_plain_literal true s then Raise OutsideModel
    else Raise ValueError in
  match split_on "."%char body with
  | [whole] =>
      match whole, digits_value 0 whole with
      | _ :: _, Some v => decimal_literal sign v 0
      | _, _ => failure
      end
  | [whole; frac] =>
      match whole ++ frac, digits_value 0 whole, digits_value 0 frac with
      | _ :: _, Some v, Some f =>
          decimal_literal sign (v * 10 ^ len frac + f) (len frac)
      | _, _, _ => failure
      end
  | _ => failure
  end.

(** The per-dataset branch at the head of the loop body, followed by
    [beat = int(beat)] and [float(time_sec)]: the time in seconds and the
    beat ordinal of one line. *)
Definition parse_line (d : dataset_id) (line : string)
  : result (spec_float * Z) :=
  let line := strip_char newline (list_ascii_of_string line) in
  let two_fields (fields : list (list ascii)) : result (spec_float * Z) :=
    match fields with
    | [time_sec; beat] =>
        beat <- py_int beat ;;
        time_sec <- py_float time_sec ;;
        Ok (time_sec, beat)
    | _ => Raise ValueError
    end in
  match d with
  | ballroom =>
      two_fields (split_on space (replace_char tab space line))
  | beatles =>
      two_fields (split_on space
                    (replace_double_space (replace_char tab space line)))
  | hainsworth => two_fields (split_on space line)
  | rwc_popular =>
      let fields := split_on tab line in
      centi <- py_int (nth 0 fields []) ;;
      time_sec <- (n <- float_of_Z centi ;;
                   hundred <- float_of_Z 100 ;;
                   fdiv n hundred) ;;
      match nth_error fields 2 with
      | None => Raise IndexError
      | Some third =>
          code <- py_int third ;;
          Ok (time_sec, if code =? 384 then 1 else 2)
      end
  | gtzan => two_fields (split_on tab line)
  | smc =>
      time_sec <- py_float line ;;
      Ok (time_sec, 1)
  | carnatic => two_fields (split_on ","%char line)
  end.

(** The state of the loop over the lines: [beat_samples],
    [downbeat_samples], [beat_indices]. *)
Definition annot_state : Type := (list Z * list Z * list Z)%type.

Definition load_annot_step (self : t) (st : annot_state) (line : string)
  : result annot_state :=
  let '(beat_samples, downbeat_samples, beat_indices) := st in
  p <- parse_line (dataset self) line ;;
  let '(time_sec, beat) := p in
  sr <- float_of_Qc (audio_sample_rate self) ;;
  product <- fmul time_sec sr ;;
  let beat_time_samples := float_trunc product in
  let beat_samples := beat_samples ++ [beat_time_samples] in
  let beat_indices := beat_indices ++ [beat] in
  if beat =? 1 then
    let downbeat_time_samples := float_trunc product in
    Ok (beat_samples, downbeat_samples ++ [downbeat_time_samples],
        beat_indices)
  else Ok (beat_samples, downbeat_samples, beat_indices).

Fixpoint load_annot_loop (self : t) (st : annot_state) (lines : list string)
  : result annot_state :=
  match lines with
  | [] => Ok st
  | line :: rest =>
      st' <- load_annot_step self st line ;;
      load_annot_loop self st' rest
  end.

(** [np.max] of a list of integers; ValueError on the empty list. *)
Definition np_max (l : list Z) : result Z :=
  match l with
  | [] => Raise ValueError
  | x :: rest => Ok (fold_left Z.max rest x)
  end.

Definition guess_time_signature (max_beat : Z) : string :=
  if max_beat =? 2 then "2/4"
  else if max_beat =? 3 then "3/4"
  else if max_beat =? 4 then "4/4"
  else "?".

Definition load_annot (self : t) (lines : list string)
  : result (list Z * list Z * list Z * string) :=
  st <- load_annot_loop self ([], [], []) lines ;;
  let '(beat_samples, downbeat_samples, beat_indices) := st in
  m <- np_max beat_indices ;;
  Ok (beat_samples, downbeat_samples, beat_indices, guess_time_signature m).

(** The positions [ps] whose ordinal in [os] is 1. *)
Definition ordinal_one_positions (ps os : list Z) : list Z :=
  map fst (filter (fun e => snd e =? 1) (combine ps os)).

(** What the loop maintains: as many ordinals as positions, and the
    downbeat positions are the positions of the lines with ordinal 1. *)
Definition annot_invariant (st : annot_state) : Prop :=
  let '(beat_samples, downbeat_samples, beat_indices) := st in
  List.length beat_samples = List.length beat_indices
  /\ downbeat_samples = ordinal_one_positions beat_samples beat_indices.

(** A source-rate sample position converted to seconds and then to the
    target rate: the two conversions of [load_data] composed. *)
Definition rescale (self : t) (p : Z) : result spec_float :=
  tsr <- target_sample_rate self ;;
  sec <- seconds self p ;;
  fmul sec tsr.

(** ** Example Sampler: the subset selection of [__init__]

    [shuffled] is [self.audio_files] after [random.shuffle].  [int(n * 0.8)]
    and [int(n * 0.9)] are the truncated quotients of 4n by 5 and of 9n by
    10: the doubles nearest to 0.8 and 0.9 exceed them by less than one
    part in 10^16, so for fewer than 2^31 files the rounded product never
    reaches the next integer. *)

(** [l[start:stop]]; [stop = None] is the open slice [l[start:]]. *)
Definition py_slice {A : Type} (start : Z) (stop : option Z) (l : list A)
  : list A :=
  let lo := slice_bound (len l) start in
  let hi := match stop with
            | Some e => slice_bound (len l) e
            | None => len l
            end in
  firstn (Z.to_nat (hi - lo)) (skipn (Z.to_nat lo) l).

(** The [start] and [stop] that the chain of [if self.subset == ...] binds;
    [None] when no branch matches and both stay unbound. *)
Definition split_bounds (subset : string) (n : Z) : option (Z * option Z) :=
  if String.eqb subset "train" then Some (0, Some (Z.quot (n * 4) 5))
  else if String.eqb subset "val"
  then Some (Z.quot (n * 4) 5, Some (Z.quot (n * 9) 10))
  else if String.eqb subset "test" then Some (Z.quot (n * 9) 10, None)
  else if existsb (String.eqb subset) ["full-train"; "full-val"]%string
  then Some (0, None)
  else None.

Inductive selection : Type :=
| Selected (files : list string)
| SelectionIndexError
| SelectionUnboundLocalError.

(** The value of [self.audio_files] after the dry-run / subset selection. *)
Definition select_files (subset : string) (dry_run : bool)
           (shuffled : list string) : selection :=
  if dry_run then
    match shuffled with
    | [] => SelectionIndexError
    | first :: _ => Selected (repeat first 50)
    end
  else
    match split_bounds subset (len shuffled) with
    | Some (start, stop) => Selected (py_slice start stop shuffled)
    | None => SelectionUnboundLocalError
    end.

(** ** Example Sampler: the length normalisation of [__getitem__]

    The random crop and the two paddings.  [audio_start] is the value
    drawn by [np.random.randint(0, N_audio - self.length - 1)], which
    raises ValueError when the upper bound is not positive. *)










(** ** Augmentations: phase inversion, [audio = -audio] *)
Definition phase_inversion (a : audio) : audio := map (map Qcopp) a.

(** The positions of a row that hold an event. *)
Definition active (row : list Z) (k : nat) : Prop := nth k row 0 <> 0.




End BeatDataset.

(** ** Batch Collator: [collater] *)

(** One element of the batch: the tuple [(audio, annot)] or
    [(audio, annot, metadata)] that [__getitem__] returns; [s_metadata] is
    [None] for the two-element tuple. *)
Record sample (M : Type) : Type := mkSample {
  s_audio : audio;
  s_annot : list interval;
  s_metadata : option M
}.

Arguments mkSample {M} _ _ _.
Arguments s_audio {M} _.
Arguments s_annot {M} _.
Arguments s_metadata {M} _.

(** [torch.ones(3) * -1] *)
Definition sentinel_row : interval := (-1, -1, -1).

Definition same_shape (a b : audio) : bool :=
  (len a =? len b) && forallb (fun x => x) (map2 Z.eqb (map len a) (map len b)).

(** [torch.stack]: the tensors must all have the same shape. *)
Definition stack (audios : list audio) : result (list audio) :=
  match audios with
  | [] => Raise RuntimeError
  | a :: rest =>
      if forallb (same_shape a) rest then Ok audios else Raise RuntimeError
  end.

(** [max] of a sequence of integers; ValueError on the empty one. *)
Definition py_max (l : list Z) : result Z :=
  match l with
  | [] => Raise ValueError
  | x :: rest => Ok (fold_left Z.max rest x)
  end.

(** [[s[2] for s in data]]: IndexError on a two-element tuple. *)
Fixpoint third_elements {M : Type} (data : list (sample M))
  : result (list M) :=
  match data with
  | [] => Ok []
  | s :: rest =>
      match s_metadata s with
      | None => Raise IndexError
      | Some m => ms <- third_elements rest ;; Ok (m :: ms)
      end
  end.

(** [rows[:annot.shape[0], :] = annot] *)
Definition assign_prefix (annot rows : list interval) : list interval :=
  annot ++ skipn (List.length annot) rows.

Definition collater {M : Type} (data : list (sample M))
  : result (list audio * list (list interval) * option (list M)) :=
  let audios := map s_audio data in
  let annots := map s_annot data in
  match data with
  | [] => Raise IndexError
  | first :: _ =>
      metadata <-
        match s_metadata first with
        | Some _ => ms <- third_elements data ;; Ok (Some ms)
        | None => Ok None
        end ;;
      new_audios <- stack audios ;;
      max_num_annots <- py_max (map len annots) ;;
      let new_annots :=
        if max_num_annots >? 0 then
          let blank := repeat sentinel_row (Z.to_nat max_num_annots) in
          map (fun annot =>
                 if len annot >? 0 then assign_prefix annot blank else blank)
              annots
        else map (fun _ => [sentinel_row]) annots in
      Ok (new_audios, new_annots, metadata)
  end.

(** ** Downsampling backbone: [dstcn.py]

    The torch layers are recorded with the arguments they are constructed
    with; torch's own validation of those arguments is not part of the
    source and is not modelled. *)
Module dsTCN.

Inductive activation : Type :=
| PReLU (ch : Z)
| ReLU
| SELU
| ELU.

(** [None] is Python's [None], returned for an unknown [act_type]. *)
Definition get_activation (act_type : string) (ch : Z) : option activation :=
  if String.eqb act_type "PReLU" then Some (PReLU ch)
  else if String.eqb act_type "ReLU" then Some ReLU
  else if String.eqb act_type "SELU" then Some SELU
  else if String.eqb act_type "ELU" then Some ELU
  else None.

Inductive norm : Type :=
| BatchNorm1d (num_features : Z)
| GroupNorm (num_groups num_channels : Z).

Record Conv1d : Type := mkConv1d {
  in_channels : Z;
  out_channels : Z;
  conv_kernel_size : Z;
  conv_stride : Z;
  conv_dilation : Z;
  conv_padding : Z
}.

Record dsTCNBlock : Type := mkBlock {
  in_ch : Z;
  out_ch : Z;
  kernel_size : Z;
  stride : Z;
  norm_type : option string;
  conv1 : Conv1d;
  act1 : option activation;
  norm1 : option norm;
  res_norm : option norm;
  res_conv : Conv1d
}.

(** [dsTCNBlock.__init__]: the attributes it sets and the arguments it
    gives to the torch layers.  The checks the layers make on their own
    arguments (channel counts that are not positive, the division of the
    channels into 32 groups by GroupNorm) belong to torch and are not
    evaluated here. *)
Definition dsTCNBlock_init (in_ch out_ch kernel_size stride dilation : Z)
           (norm_type : option string) (act_type : string) : dsTCNBlock :=
  let pad_value := ((kernel_size - 1) * dilation) / 2 in
  let conv1 := mkConv1d in_ch out_ch kernel_size stride dilation pad_value in
  let act1 := get_activation act_type out_ch in
  let '(norm1, res_norm) :=
    match norm_type with
    | Some nt =>
        if String.eqb nt "BatchNorm"
        then (Some (BatchNorm1d out_ch), Some (BatchNorm1d out_ch))
        else if String.eqb nt "GroupNorm"
        then (Some (GroupNorm 32 out_ch), Some (GroupNorm 32 out_ch))
        else (None, None)
    | None => (None, None)
    end in
  let res_conv := mkConv1d in_ch out_ch 1 stride 1 0 in
  mkBlock in_ch out_ch kernel_size stride norm_type
          conv1 act1 norm1 res_norm res_conv.

(** The keyword arguments of [dsTCNModel.__init__]. *)
Record hparams : Type := mkHparams {
  ninputs : Z;
  noutputs : Z;
  nblocks : Z;
  hp_kernel_size : Z;
  hp_stride : Z;
  dilation_growth : Z;
  channel_growth : Z;
  channel_width : Z;
  stack_size : Z;
  hp_norm_type : option string;
  hp_act_type : string
}.

(** [range(n)] *)
Definition range (n : Z) : list Z := map Z.of_nat (seq 0 (Z.to_nat n)).

(** The loop of [dsTCNModel.__init__].  [prev_out_ch] is the loop variable
    [out_ch] as the previous iteration left it; it is read only when
    [n <> 0].  [n % stack_size] raises ZeroDivisionError for a zero
    [stack_size]; a negative exponent makes [**] return a float. *)
Fixpoint build_blocks (hp : hparams) (ns : list Z) (prev_out_ch : Z)
         (blocks : list dsTCNBlock) : result (list dsTCNBlock) :=
  match ns with
  | [] => Ok blocks
  | n :: rest =>
      let in_ch := if n =? 0 then ninputs hp else prev_out_ch in
      let out_ch :=
        if n =? 0 then channel_width hp else in_ch + channel_growth hp in
      if stack_size hp =? 0 then Raise ZeroDivisionError
      else if n mod stack_size hp <? 0 then Raise OutsideModel
      else
        let dilation := dilation_growth hp ^ (n mod stack_size hp) in
        build_blocks hp rest out_ch
          (blocks ++ [dsTCNBlock_init in_ch out_ch (hp_kernel_size hp)
                        (hp_stride hp) dilation (hp_norm_type hp)
                        (hp_act_type hp)])
  end.

(** Closed form of the block that iteration [n] of the loop appends; the
    loop is related to it by [build_blocks_closed_form]. *)
Definition block_at (hp : hparams) (n : Z) : dsTCNBlock :=
  dsTCNBlock_init
    (if n =? 0 then ninputs hp
     else channel_width hp + (n - 1) * channel_growth hp)
    (channel_width hp + n * channel_growth hp)
    (hp_kernel_size hp) (hp_stride hp)
    (dilation_growth hp ^ (n mod stack_size hp))
    (hp_norm_type hp) (hp_act_type hp).

(** [dsTCNModel.__init__]: the value of [self.blocks]. *)
Definition dsTCNModel_init (hp : hparams) : result (list dsTCNBlock) :=
  build_blocks hp (range (nblocks hp)) 0 [].

(** ** [dsTCNModel.forward]

    [T] is the type of activations and [S] of their shapes;
    [block_forward] is [dsTCNBlock.forward], which may raise. *)
Section Forward.

Context {T S : Type}.
Variable block_forward : dsTCNBlock -> T -> result T.
Variable shape : T -> S.

(** The loop of [forward] from iteration [i] on. *)
Fixpoint forward_loop (start_level_for_fpn base_image_level : Z) (i : Z)
         (blocks : list dsTCNBlock) (x : T) (results : list T)
         (base_level_image_shape : option S) : result (list T * option S) :=
  match blocks with
  | [] => Ok (results, base_level_image_shape)
  | block :: rest =>
      x <- block_forward block x ;;
      let results :=
        if i >=? start_level_for_fpn then results ++ [x] else results in
      let base_level_image_shape :=
        if i =? base_image_level - 1 then Some (shape x)
        else base_level_image_shape in
      forward_loop start_level_for_fpn base_image_level (i + 1) rest x
                   results base_level_image_shape
  end.

Definition forward (blocks : list dsTCNBlock) (x : T)
           (last_count base_image_level : Z) : result (list T * option S) :=
  let start_level_for_fpn := len blocks - last_count in
  forward_loop start_level_for_fpn base_image_level 0 blocks x [] None.

(** The activations after each block, in order: what [forward] walks
    through. *)
Fixpoint activations (blocks : list dsTCNBlock) (x : T) : result (list T) :=
  match blocks with
  | [] => Ok []
  | block :: rest =>
      y <- block_forward block x ;;
      ys <- activations rest y ;;
      Ok (y :: ys)
  end.

End Forward.

(** ** Temporal length through one block

    [torch.nn.Conv1d] maps an input of length l to
    floor((l + 2 * padding - dilation * (kernel_size - 1) - 1) / stride) + 1
    samples and raises RuntimeError when the stride, the dilation or the
    kernel size is not positive, the padding is negative, or the padded
    input is shorter than the dilated kernel; normalisation and activation
    keep the length; the final [x + x_res] needs equal lengths unless one
    of them is 1, which is broadcast. *)
Definition conv_out_length (c : Conv1d) (l : Z) : result Z :=
  let span :=
    l + 2 * conv_padding c - conv_dilation c * (conv_kernel_size c - 1) - 1 in
  if (conv_stride c <=? 0) || (conv_dilation c <=? 0)
     || (conv_kernel_size c <=? 0) || (conv_padding c <? 0) || (span <? 0)
  then Raise RuntimeError
  else Ok (span / conv_stride c + 1).

Definition block_out_length (b : dsTCNBlock) (l : Z) : result Z :=
  x <- conv_out_length (conv1 b) l ;;
  x_res <- conv_out_length (res_conv b) l ;;
  if x =? x_res then Ok x
  else if x =? 1 then Ok x_res
  else if x_res =? 1 then Ok x
  else Raise RuntimeError.

End dsTCN.

(** * Sample inputs *)

Definition ballroom_44100 (subset : string) : BeatDataset.t :=
  BeatDataset.mk (Qc_of_Z 44100) (Qc_of_Z 256) BeatDataset.ballroom subset
                 16384 1000 ["a.wav"; "b.wav"; "c.wav"]%string "constant".

Definition full_train_of_three : BeatDataset.t := ballroom_44100 "full-train".

Definition val_of_three : BeatDataset.t := ballroom_44100 "val".

(** A window of 40 audio samples per example and one target sample for
    every 4 audio samples. *)
Definition window_40_factor_4 : BeatDataset.t :=
  BeatDataset.mk (Qc_of_Z 44100) (Qc_of_Z 4) BeatDataset.ballroom "train"
                 40 1000 ["a.wav"]%string "constant".

Definition ones_audio_40 : audio := [repeat (Qc_of_Z 1) 40].

Definition ones_target_11 : target := mkTarget (repeat 1 11) (repeat 1 11).

Definition beat_at_start : target :=
  mkTarget [1; 0; 0; 1; 0; 0; 0; 0] [0; 0; 0; 1; 0; 0; 0; 0].

(** A batch whose examples carry 0, 3 and 1 intervals. *)
Definition batch_0_3_1 : list (sample unit) :=
  [ mkSample [[Qc_of_Z 1; Qc_of_Z 0]] [] None;
    mkSample [[Qc_of_Z 0; Qc_of_Z 1]] [(0, 4, 0); (0, 2, 1); (2, 4, 1)] None;
    mkSample [[Qc_of_Z 1; Qc_of_Z 1]] [(5, 9, 1)] None ].

(** The default arguments of [dsTCNModel.__init__]. *)
Definition default_hparams : dsTCN.hparams :=
  dsTCN.mkHparams 1 2 8 3 2 8 1 32 4 (Some "BatchNorm"%string) "PReLU".

(** The annotation lines of the ballroom scenario. *)
Definition ballroom_lines : list string :=
  ["0.5 1"; "1.5 2"; "2.5 3"; "3.5 4"; "4.5 1"]%string.

(** A stereo signal with peak 4. *)
Definition stereo_peak_4 : audio :=
  [[Qc_of_Z 1; Qc_of_Z (-4); Qc_of_Z 2]; [Qc_of_Z 0; Qc_of_Z 3; Qc_of_Z (-1)]].





Definition smc_lines : list string := ["0.5"; "1.25"; "2"]%string.

Definition smc_44100 : BeatDataset.t :=
  BeatDataset.mk (Qc_of_Z 44100) (Qc_of_Z 256) BeatDataset.smc "train"
                 16384 1000 ["a.wav"]%string "constant".

(** * Properties *)

Import BeatDataset.

(** ** Example Sampler: the length operation *)

(** C4, as stated, fails: for the subset "full-train" with three files and
    examples_per_epoch = 1000 the length operation does not return the file
    count. *)
Lemma len_full_train_is_not_file_count :
  __len__ full_train_of_three <> len (audio_files full_train_of_three).
Proof. vm_compute. discriminate. Qed.

(** C4, amended: the length operation returns examples_per_epoch for the
    training subsets "train" and "full-train", and the number of files,
    whatever examples_per_epoch is, for "val", "test", "full-val" and
    "full-test". *)
Theorem len_by_subset (self : BeatDataset.t) :
  (subset self = "train"%string \/ subset self = "full-train"%string ->
   __len__ self = examples_per_epoch self)
  /\ (subset self = "val"%string \/ subset self = "test"%string
      \/ subset self = "full-val"%string \/ subset self = "full-test"%string ->
      __len__ self = len (audio_files self)).
Proof.
  unfold __len__; split.
  - intros [H | H]; rewrite H; reflexivity.
  - intros [H | [H | [H | H]]]; rewrite H; reflexivity.
Qed.

Lemma len_by_subset_witness :
  __len__ full_train_of_three = 1000 /\ __len__ val_of_three = 3.
Proof.
  split.
  - exact (proj1 (len_by_subset full_train_of_three) (or_intror eq_refl)).
  - exact (proj2 (len_by_subset val_of_three) (or_introl eq_refl)).
Defined.

(** ** Interval Builder *)

Lemma len_nonneg {A : Type} (l : list A) : 0 <= len l.
Proof. unfold len; lia. Qed.

Lemma nonzero_from_bounds {A : Type} (nz : A -> bool) (row : list A) :
  forall i k, In k (nonzero_from nz i row) -> i <= k < i + len row.
Proof.
  induction row as [| x rest IH]; intros i k Hin; simpl in Hin.
  - contradiction.
  - assert (Hl : len (x :: rest) = 1 + len rest)
      by (unfold len; simpl List.length; lia).
    rewrite Hl.
    destruct (nz x).
    + destruct Hin as [<- | Hin].
      * pose proof (len_nonneg rest); lia.
      * apply IH in Hin; lia.
    + apply IH in Hin; lia.
Qed.

Lemma nonzero_from_sorted {A : Type} (nz : A -> bool) (row : list A) :
  forall i, StronglySorted Z.lt (nonzero_from nz i row).
Proof.
  induction row as [| x rest IH]; intros i; simpl.
  - constructor.
  - destruct (nz x); [| apply IH].
    constructor; [apply IH |].
    apply Forall_forall; intros k Hk.
    apply nonzero_from_bounds in Hk; lia.
Qed.

Lemma nth_error_enumerate_from {A : Type} (l : list A) :
  forall k i,
    nth_error (enumerate_from k l) i
    = option_map (fun x => ((k + i)%nat, x)) (nth_error l i).
Proof.
  induction l as [| x rest IH]; intros k [| i]; simpl; try reflexivity.
  - now rewrite Nat.add_0_r.
  - rewrite IH; simpl. now rewrite Nat.add_succ_r.
Qed.

Lemma length_enumerate_from {A : Type} (l : list A) :
  forall k, List.length (enumerate_from k l) = List.length l.
Proof. induction l; intros k; simpl; [| rewrite IHl]; reflexivity. Qed.

Lemma length_removelast {A : Type} (l : list A) :
  List.length (removelast l) = (List.length l - 1)%nat.
Proof.
  induction l as [| x [| y rest] IH]; try reflexivity.
  change (removelast (x :: y :: rest)) with (x :: removelast (y :: rest)).
  simpl List.length in *. rewrite IH. lia.
Qed.

Lemma nth_removelast {A : Type} (d : A) (l : list A) :
  forall i, (i < List.length l - 1)%nat -> nth i (removelast l) d = nth i l d.
Proof.
  induction l as [| x [| y rest] IH]; intros i Hi; simpl in Hi; try lia.
  change (removelast (x :: y :: rest)) with (x :: removelast (y :: rest)).
  destruct i as [| i]; [reflexivity |].
  simpl nth at 1. rewrite IH by (simpl; lia). reflexivity.
Qed.

Lemma length_make_interval_subset (samples : list Z) (cls : Z) :
  List.length (make_interval_subset samples cls)
  = (List.length samples - 1)%nat.
Proof.
  unfold make_interval_subset, enumerate.
  now rewrite length_map, length_enumerate_from, length_removelast.
Qed.

Lemma nth_make_interval_subset (samples : list Z) (cls : Z) (d : interval) :
  forall i, (i < List.length samples - 1)%nat ->
    nth i (make_interval_subset samples cls) d
    = (nth i samples 0, nth (S i) samples 0, cls).
Proof.
  intros i Hi. apply nth_error_nth.
  unfold make_interval_subset, enumerate.
  rewrite nth_error_map, nth_error_enumerate_from.
  assert (Hr : nth_error (removelast samples) i
               = Some (nth i samples 0)).
  { rewrite <- (nth_removelast 0 samples i Hi).
    apply nth_error_nth'. rewrite length_removelast. exact Hi. }
  rewrite Hr. reflexivity.
Qed.

Lemma class_make_interval_subset (samples : list Z) (cls : Z) :
  Forall (fun iv => class_id iv = cls) (make_interval_subset samples cls).
Proof.
  unfold make_interval_subset. apply Forall_forall. intros iv Hin.
  apply in_map_iff in Hin. destruct Hin as [[i x] [<- _]]. reflexivity.
Qed.

Lemma of_class_same (c : Z) (ivs : list interval) :
  Forall (fun iv => class_id iv = c) ivs -> of_class c ivs = ivs.
Proof.
  unfold of_class. induction 1 as [| iv ivs Hc _ IH]; simpl.
  - reflexivity.
  - rewrite Hc, Z.eqb_refl, IH. reflexivity.
Qed.

Lemma of_class_other (c c' : Z) (ivs : list interval) :
  c <> c' -> Forall (fun iv => class_id iv = c') ivs -> of_class c ivs = [].
Proof.
  unfold of_class. intros Hne. induction 1 as [| iv ivs Hc _ IH]; simpl.
  - reflexivity.
  - rewrite Hc. destruct (Z.eqb_spec c' c); [congruence | exact IH].
Qed.

Lemma make_intervals_populated (t : target) :
  2 <= len (nonzero (downbeats t)) -> 2 <= len (nonzero (beats t)) ->
  make_intervals t
  = make_interval_subset (nonzero (downbeats t)) 0
      ++ make_interval_subset (nonzero (beats t)) 1.
Proof.
  intros Hd Hb. unfold make_intervals, squeezed_size0, bind.
  destruct (Z.eqb_spec (len (nonzero (downbeats t))) 1); [lia |].
  destruct (Z.ltb_spec (len (nonzero (downbeats t))) 2); [lia |].
  destruct (Z.eqb_spec (len (nonzero (beats t))) 1); [lia |].
  destruct (Z.ltb_spec (len (nonzero (beats t))) 2); [lia |].
  reflexivity.
Qed.

Lemma make_intervals_under_populated (t : target) :
  len (nonzero (downbeats t)) < 2 \/ len (nonzero (beats t)) < 2 ->
  make_intervals t = [].
Proof.
  intros H. unfold make_intervals, squeezed_size0, bind.
  destruct (Z.eqb_spec (len (nonzero (downbeats t))) 1); [reflexivity |].
  destruct (Z.ltb_spec (len (nonzero (downbeats t))) 2); [reflexivity |].
  destruct (Z.eqb_spec (len (nonzero (beats t))) 1); [reflexivity |].
  destruct (Z.ltb_spec (len (nonzero (beats t))) 2); [reflexivity | lia].
Qed.

(** C1, as stated, fails.  With three active beats and one active downbeat
    the beat channel contributes no interval instead of two; with two
    active downbeats and one active beat the downbeat channel contributes
    no interval instead of one. *)
Lemma make_intervals_not_per_channel :
  (2 <= len (nonzero (beats (mkTarget [1; 0; 1; 0; 1] [1; 0; 0; 0; 0])))
   /\ len (of_class 1 (make_intervals
                         (mkTarget [1; 0; 1; 0; 1] [1; 0; 0; 0; 0])))
      <> len (nonzero (beats (mkTarget [1; 0; 1; 0; 1] [1; 0; 0; 0; 0]))) - 1)
  /\ (2 <= len (nonzero (downbeats (mkTarget [0; 0; 1; 0; 0] [1; 0; 0; 0; 1])))
      /\ len (of_class 0 (make_intervals
                            (mkTarget [0; 0; 1; 0; 0] [1; 0; 0; 0; 1])))
         <> len (nonzero
                   (downbeats (mkTarget [0; 0; 1; 0; 0] [1; 0; 0; 0; 1]))) - 1).
Proof. vm_compute. repeat split; discriminate. Qed.

(** C1, amended: the active indices of each channel are found in
    ascending order; when BOTH channels have at least two active indices,
    each channel contributes exactly (count - 1) intervals, one per
    consecutive pair of its active indices, with class 0 for the downbeat
    channel (listed first) and class 1 for the beat channel; when either
    channel has fewer than two active indices the builder returns no
    interval at all. *)
Theorem make_intervals_counts (t : target) :
  let d := nonzero (downbeats t) in
  let b := nonzero (beats t) in
  StronglySorted Z.lt d /\ StronglySorted Z.lt b
  /\ (2 <= len d -> 2 <= len b ->
      make_intervals t
      = of_class 0 (make_intervals t) ++ of_class 1 (make_intervals t)
      /\ len (of_class 0 (make_intervals t)) = len d - 1
      /\ len (of_class 1 (make_intervals t)) = len b - 1
      /\ (forall i, (i < List.length d - 1)%nat ->
            nth i (of_class 0 (make_intervals t)) sentinel_row
            = (nth i d 0, nth (S i) d 0, 0))
      /\ (forall i, (i < List.length b - 1)%nat ->
            nth i (of_class 1 (make_intervals t)) sentinel_row
            = (nth i b 0, nth (S i) b 0, 1)))
  /\ (len d < 2 \/ len b < 2 -> make_intervals t = []).
Proof.
  intros d b. split; [apply nonzero_from_sorted |].
  split; [apply nonzero_from_sorted |].
  split; [| apply make_intervals_under_populated].
  intros Hd Hb. rewrite (make_intervals_populated t Hd Hb). fold d b.
  assert (H0 : of_class 0 (make_interval_subset d 0
                             ++ make_interval_subset b 1)
               = make_interval_subset d 0).
  { unfold of_class. rewrite filter_app.
    fold (of_class 0 (make_interval_subset d 0)).
    fold (of_class 0 (make_interval_subset b 1)).
    rewrite (of_class_same 0 (make_interval_subset d 0))
      by apply class_make_interval_subset.
    rewrite (of_class_other 0 1 (make_interval_subset b 1))
      by (try apply class_make_interval_subset; lia).
    apply app_nil_r. }
  assert (H1 : of_class 1 (make_interval_subset d 0
                             ++ make_interval_subset b 1)
               = make_interval_subset b 1).
  { unfold of_class. rewrite filter_app.
    fold (of_class 1 (make_interval_subset d 0)).
    fold (of_class 1 (make_interval_subset b 1)).
    rewrite (of_class_same 1 (make_interval_subset b 1))
      by apply class_make_interval_subset.
    rewrite (of_class_other 1 0 (make_interval_subset d 0))
      by (try apply class_make_interval_subset; lia).
    reflexivity. }
  rewrite H0, H1. unfold len in *.
  rewrite !length_make_interval_subset.
  repeat split; try lia.
  - intros i Hi. now apply nth_make_interval_subset.
  - intros i Hi. now apply nth_make_interval_subset.
Qed.

Lemma make_intervals_counts_witness :
  make_intervals (mkTarget [1; 0; 1; 0; 1] [1; 0; 0; 0; 1])
  = [(0, 4, 0); (0, 2, 1); (2, 4, 1)]
  /\ make_intervals (mkTarget [1; 0; 1; 0; 1] [1; 0; 0; 0; 0]) = [].
Proof.
  pose proof (make_intervals_counts
                (mkTarget [1; 0; 1; 0; 1] [1; 0; 0; 0; 1])) as Hp.
  pose proof (make_intervals_counts
                (mkTarget [1; 0; 1; 0; 1] [1; 0; 0; 0; 0])) as Hu.
  cbv zeta in Hp, Hu.
  destruct Hp as (_ & _ & Hp & _). destruct Hu as (_ & _ & _ & Hu).
  split.
  - assert (Hd : 2 <= len (nonzero
                             (downbeats
                                (mkTarget [1; 0; 1; 0; 1] [1; 0; 0; 0; 1]))))
      by (vm_compute; discriminate).
    assert (Hb : 2 <= len (nonzero
                             (beats
                                (mkTarget [1; 0; 1; 0; 1] [1; 0; 0; 0; 1]))))
      by (vm_compute; discriminate).
    destruct (Hp Hd Hb) as (Heq & _). rewrite Heq. reflexivity.
  - apply Hu. left. vm_compute. reflexivity.
Defined.

(** ** Augmentations *)

(** C2: what the silence step does to a 40-sample audio and its 11-sample
    target (downsample factor 4) when the drawn offset is 8.  The audio is
    silenced on samples 8..11, whose target window is index 2 alone; the
    target is zeroed on indices 8..10 instead, the audio bounds used
    unscaled, and index 2 keeps its event. *)
Theorem drop_contiguous_frames_unscaled_window :
  drop_contiguous_frames window_40_factor_4 8 ones_audio_40 ones_target_11
  = Ok ([repeat (Qc_of_Z 1) 8 ++ repeat 0%Qc 4 ++ repeat (Qc_of_Z 1) 28],
        mkTarget [1; 1; 1; 1; 1; 1; 1; 1; 0; 0; 0]
                 [1; 1; 1; 1; 1; 1; 1; 1; 0; 0; 0]).
Proof. vm_compute. reflexivity. Qed.

(** C3: a beat at index 0 jittered by -1 is not clipped: its index -1
    addresses the last position, and the re-rendered target of width 8 has
    an event at index 7. *)
Theorem shift_targets_negative_index_wraps :
  shift_targets 0 (-1) beat_at_start
  = Ok (mkTarget [0; 0; 0; 1; 0; 0; 0; 1] [0; 0; 0; 1; 0; 0; 0; 0]).
Proof. vm_compute. reflexivity. Qed.

(** *** Index assignment *)

Lemma length_list_set {A : Type} (v : A) (row : list A) :
  forall n, List.length (list_set n v row) = List.length row.
Proof.
  induction row as [| x rest IH]; intros [| n]; simpl; auto.
Qed.

Lemma nth_list_set_same {A : Type} (v d : A) (row : list A) :
  forall n, (n < List.length row)%nat -> nth n (list_set n v row) d = v.
Proof.
  induction row as [| x rest IH]; intros [| n] Hn; simpl in *; try lia.
  - reflexivity.
  - apply IH; lia.
Qed.

Lemma nth_list_set_other {A : Type} (v d : A) (row : list A) :
  forall n k, n <> k -> nth k (list_set n v row) d = nth k row d.
Proof.
  induction row as [| x rest IH]; intros [| n] [| k] Hne; simpl;
    try reflexivity; try congruence.
  apply IH; congruence.
Qed.

Lemma norm_index_range (n i j : Z) :
  norm_index n i = Ok j -> 0 <= j < n.
Proof.
  unfold norm_index.
  destruct (Z.ltb_spec i (- n)), (Z.leb_spec n i); simpl;
    try discriminate.
  destruct (Z.ltb_spec i 0); intros [= <-]; lia.
Qed.

Lemma norm_index_accepts (n i : Z) :
  - n <= i < n -> exists j, norm_index n i = Ok j.
Proof.
  intros H. unfold norm_index.
  destruct (Z.ltb_spec i (- n)), (Z.leb_spec n i); simpl; try lia.
  eauto.
Qed.

Lemma len_list_set {A : Type} (v : A) (row : list A) (n : nat) :
  len (list_set n v row) = len row.
Proof. unfold len. now rewrite length_list_set. Qed.

Lemma index_put_length (v : Z) (idx : list Z) :
  forall row row', index_put row idx v = Ok row' -> len row' = len row.
Proof.
  induction idx as [| i rest IH]; intros row row' H; simpl in H.
  - now injection H as <-.
  - destruct (norm_index (len row) i) as [j |]; simpl in H;
      [| discriminate].
    apply IH in H. now rewrite len_list_set in H.
Qed.

Lemma index_put_keeps (v d : Z) (idx : list Z) :
  forall row row' k,
    index_put row idx v = Ok row' -> nth k row d = v -> nth k row' d = v.
Proof.
  induction idx as [| i rest IH]; intros row row' k H Hk; simpl in H.
  - now injection H as <-.
  - destruct (norm_index (len row) i) as [j |] eqn:Hj; simpl in H;
      [| discriminate].
    apply (IH _ _ k H).
    destruct (Nat.eq_dec (Z.to_nat j) k) as [<- | Hne].
    + apply nth_list_set_same.
      apply norm_index_range in Hj. unfold len in Hj. lia.
    + now rewrite nth_list_set_other.
Qed.

Lemma index_put_written (v d : Z) (idx : list Z) :
  forall row row' i j,
    index_put row idx v = Ok row' -> In i idx ->
    norm_index (len row) i = Ok j -> nth (Z.to_nat j) row' d = v.
Proof.
  induction idx as [| i0 rest IH]; intros row row' i j H Hin Hj;
    simpl in H; [contradiction |].
  destruct (norm_index (len row) i0) as [j0 |] eqn:Hj0; simpl in H;
    [| discriminate].
  destruct Hin as [-> | Hin].
  - rewrite Hj in Hj0. injection Hj0 as <-.
    apply (index_put_keeps v d rest _ _ _ H).
    apply nth_list_set_same.
    apply norm_index_range in Hj. unfold len in Hj. lia.
  - apply (IH _ _ i j H Hin). now rewrite len_list_set.
Qed.

Lemma index_put_cases (v d : Z) (idx : list Z) :
  forall row row' k,
    index_put row idx v = Ok row' ->
    nth k row' d = nth k row d
    \/ exists i, In i idx /\ norm_index (len row) i = Ok (Z.of_nat k).
Proof.
  induction idx as [| i0 rest IH]; intros row row' k H; simpl in H.
  - injection H as <-. now left.
  - destruct (norm_index (len row) i0) as [j0 |] eqn:Hj0; simpl in H;
      [| discriminate].
    destruct (IH _ _ k H) as [Hsame | (i & Hin & Hi)].
    + destruct (Nat.eq_dec (Z.to_nat j0) k) as [<- | Hne].
      * right. exists i0. split; [now left |].
        apply norm_index_range in Hj0 as Hr.
        rewrite Z2Nat.id by lia. exact Hj0.
      * left. rewrite Hsame. now apply nth_list_set_other.
    + right. exists i. split; [now right |].
      now rewrite len_list_set in Hi.
Qed.

Lemma index_put_accepts (v : Z) (idx : list Z) :
  forall row,
    Forall (fun i => - len row <= i < len row) idx ->
    exists row', index_put row idx v = Ok row'.
Proof.
  induction idx as [| i rest IH]; intros row H; simpl.
  - eauto.
  - inversion H as [| ? ? Hi Hrest]; subst.
    destruct (norm_index_accepts _ _ Hi) as [j ->]. simpl.
    apply IH. now rewrite len_list_set.
Qed.

Lemma nth_zeros (n : Z) (k : nat) : nth k (zeros n) 0 = 0.
Proof.
  unfold zeros. generalize (Z.to_nat n) as m. intros m. revert k.
  induction m as [| m IH]; intros [| k]; simpl; auto.
Qed.

Lemma len_zeros (n : Z) : 0 <= n -> len (zeros n) = n.
Proof.
  intros H. unfold len, zeros. rewrite repeat_length. lia.
Qed.

Lemma shifted_indices_accepted (n shift : Z) (idx : list Z) :
  - n <= shift -> Forall (fun i => 0 <= i) idx ->
  Forall (fun i => - n <= i < n)
         (filter (fun i => i <? n) (map (fun i => i + shift) idx)).
Proof.
  intros Hs Hidx. apply Forall_forall. intros i Hin.
  apply filter_In in Hin. destruct Hin as [Hin Hlt].
  apply in_map_iff in Hin. destruct Hin as (i0 & <- & Hin0).
  rewrite Forall_forall in Hidx. specialize (Hidx _ Hin0).
  apply Z.ltb_lt in Hlt. lia.
Qed.

Lemma nonzero_mask_nonneg (mask : list bool) :
  Forall (fun i => 0 <= i) (nonzero_mask mask).
Proof.
  apply Forall_forall. intros i Hin.
  apply nonzero_from_bounds in Hin. lia.
Qed.

(** C10: whenever the jitter step returns a target, every active index of
    its downbeat row is active in its beat row; and it does return one
    whenever neither drawn offset is below minus the target width (a
    smaller offset sends an index below the accepted range and raises
    IndexError). *)
Theorem shift_targets_downbeats_within_beats
        (dbeat_shift beat_shift : Z) (tgt : target) :
  (- target_width tgt <= dbeat_shift -> - target_width tgt <= beat_shift ->
   exists out, shift_targets dbeat_shift beat_shift tgt = Ok out)
  /\ (forall out,
        shift_targets dbeat_shift beat_shift tgt = Ok out ->
        forall k, nth k (downbeats out) 0 <> 0 -> nth k (beats out) 0 <> 0).
Proof.
  unfold shift_targets.
  set (n := target_width tgt).
  set (beat_ind := filter _ (map (fun i => i + beat_shift) _)).
  set (dbeat_ind := filter _ (map (fun i => i + dbeat_shift) _)).
  assert (Hn : 0 <= n) by apply len_nonneg.
  split.
  - intros Hd Hb.
    destruct (index_put_accepts 1 beat_ind (zeros n)) as [r0 Hr0].
    { rewrite len_zeros by exact Hn.
      apply shifted_indices_accepted; [exact Hb | apply nonzero_mask_nonneg]. }
    assert (Hacc : Forall (fun i => - n <= i < n) dbeat_ind)
      by (apply shifted_indices_accepted;
          [exact Hd | apply nonzero_mask_nonneg]).
    destruct (index_put_accepts 1 dbeat_ind r0) as [r0' Hr0'].
    { rewrite (index_put_length _ _ _ _ Hr0), len_zeros by exact Hn.
      exact Hacc. }
    destruct (index_put_accepts 1 dbeat_ind (zeros n)) as [r1 Hr1].
    { rewrite len_zeros by exact Hn. exact Hacc. }
    rewrite Hr0; simpl. rewrite Hr0'; simpl. rewrite Hr1; simpl. eauto.
  - intros out H k Hk.
    destruct (index_put (zeros n) beat_ind 1) as [r0 |] eqn:Hr0;
      simpl in H; [| discriminate].
    destruct (index_put r0 dbeat_ind 1) as [r0' |] eqn:Hr0';
      simpl in H; [| discriminate].
    destruct (index_put (zeros n) dbeat_ind 1) as [r1 |] eqn:Hr1;
      simpl in H; [| discriminate].
    injection H as <-. simpl in *.
    destruct (index_put_cases 1 0 _ _ _ k Hr1) as [Hsame | (i & Hin & Hi)].
    + rewrite Hsame, nth_zeros in Hk. congruence.
    + rewrite len_zeros in Hi by exact Hn.
      assert (Hw : nth (Z.to_nat (Z.of_nat k)) r0' 0 = 1).
      { apply (index_put_written 1 0 dbeat_ind r0 r0' i); auto.
        now rewrite (index_put_length _ _ _ _ Hr0), len_zeros. }
      rewrite Nat2Z.id in Hw. rewrite Hw. discriminate.
Qed.

Lemma shift_targets_downbeats_within_beats_witness :
  (exists out, shift_targets 0 (-1) beat_at_start = Ok out)
  /\ nth 3 (beats (mkTarget [0; 0; 0; 1; 0; 0; 0; 1]
                            [0; 0; 0; 1; 0; 0; 0; 0])) 0 <> 0.
Proof.
  split.
  - apply (proj1 (shift_targets_downbeats_within_beats 0 (-1) beat_at_start));
      vm_compute; discriminate.
  - apply (proj2 (shift_targets_downbeats_within_beats 0 (-1) beat_at_start)
                 (mkTarget [0; 0; 0; 1; 0; 0; 0; 1] [0; 0; 0; 1; 0; 0; 0; 0])).
    + vm_compute. reflexivity.
    + vm_compute. discriminate.
Defined.

(** ** Batch Collator *)

Lemma bind_Ok {A B : Type} (a : A) (k : A -> result B) :
  bind (Ok a) k = k a.
Proof. reflexivity. Qed.

Lemma fold_left_max_spec (l : list Z) :
  forall x,
    (fold_left Z.max l x = x \/ In (fold_left Z.max l x) l)
    /\ x <= fold_left Z.max l x
    /\ Forall (fun y => y <= fold_left Z.max l x) l.
Proof.
  induction l as [| y rest IH]; intros x; simpl.
  - repeat split; auto; lia.
  - destruct (IH (Z.max x y)) as (Hin & Hle & Hall).
    repeat split.
    + destruct Hin as [Heq | Hin]; [| now right; right].
      rewrite Heq. destruct (Z.max_spec x y) as [[_ ->] | [_ ->]]; auto.
    + lia.
    + constructor; [lia | exact Hall].
Qed.

Lemma py_max_spec (l : list Z) (m : Z) :
  py_max l = Ok m -> In m l /\ Forall (fun y => y <= m) l.
Proof.
  destruct l as [| x rest]; simpl; [discriminate |].
  intros [= <-].
  destruct (fold_left_max_spec rest x) as (Hin & Hle & Hall).
  split.
  - destruct Hin as [-> | Hin]; [now left | now right].
  - constructor; assumption.
Qed.

Lemma third_elements_total {M : Type} (data : list (sample M)) :
  Forall (fun s => s_metadata s <> None) data ->
  exists ms, third_elements data = Ok ms.
Proof.
  induction 1 as [| s rest Hs _ [ms IH]]; simpl.
  - eauto.
  - destruct (s_metadata s); [| congruence].
    rewrite IH. simpl. eauto.
Qed.

Lemma stack_total (a : audio) (rest : list audio) :
  Forall (fun b => same_shape a b = true) rest ->
  stack (a :: rest) = Ok (a :: rest).
Proof.
  intros H. simpl.
  assert (Hb : forallb (same_shape a) rest = true)
    by (apply forallb_forall; now apply Forall_forall).
  now rewrite Hb.
Qed.

(** One slice of the padded tensor: [annot] in front, sentinel rows up to
    [m] rows. *)
Lemma padded_slice (annot : list interval) (m : Z) :
  len annot <= m ->
  let blank := repeat sentinel_row (Z.to_nat m) in
  let rows := if len annot >? 0 then assign_prefix annot blank else blank in
  len rows = m
  /\ firstn (List.length annot) rows = annot
  /\ forall j, (List.length annot <= j)%nat -> Z.of_nat j < m ->
               nth_error rows j = Some sentinel_row.
Proof.
  intros Hle blank rows.
  pose proof (len_nonneg annot) as H0.
  assert (Hrows : rows = annot ++ skipn (List.length annot) blank).
  { unfold rows, assign_prefix.
    destruct (Z.gtb_spec (len annot) 0) as [Hpos | Hz]; [reflexivity |].
    assert (Hnil : annot = []).
    { destruct annot; [reflexivity |]. unfold len in Hz. simpl in Hz. lia. }
    now rewrite Hnil. }
  rewrite Hrows. unfold len in *. repeat split.
  - rewrite length_app, length_skipn. unfold blank.
    rewrite repeat_length. lia.
  - rewrite firstn_app, firstn_all, Nat.sub_diag. simpl.
    apply app_nil_r.
  - intros j Hj Hjm.
    rewrite nth_error_app2 by exact Hj.
    rewrite nth_error_skipn. unfold blank.
    apply nth_error_repeat. lia.
Qed.

(** C7: for a nonempty batch whose audio tensors have one shape (and whose
    examples all carry metadata if the first one does), the collator
    returns an annotation tensor with one slice per example, every slice
    of max(max_intervals, 1) rows: the example's intervals first, then
    only sentinel rows (-1, -1, -1). *)
Theorem collater_pads_with_sentinel {M : Type}
        (data : list (sample M)) (first : sample M) :
  hd_error data = Some first ->
  Forall (fun s => same_shape (s_audio first) (s_audio s) = true) data ->
  (s_metadata first = None \/ Forall (fun s => s_metadata s <> None) data) ->
  exists new_audios new_annots metadata rows_count,
    collater data = Ok (new_audios, new_annots, metadata)
    /\ 1 <= rows_count
    /\ Forall (fun s => len (s_annot s) <= rows_count) data
    /\ (rows_count = 1 \/ Exists (fun s => len (s_annot s) = rows_count) data)
    /\ List.length new_annots = List.length data
    /\ forall i s,
         nth_error data i = Some s ->
         exists rows,
           nth_error new_annots i = Some rows
           /\ len rows = rows_count
           /\ firstn (List.length (s_annot s)) rows = s_annot s
           /\ forall j, (List.length (s_annot s) <= j)%nat ->
                        Z.of_nat j < rows_count ->
                        nth_error rows j = Some sentinel_row.
Proof.
  intros Hhd Hshape Hmeta.
  destruct data as [| s0 rest]; [discriminate |].
  injection Hhd as ->.
  unfold collater. cbv beta iota zeta.
  assert (Hm : exists metadata,
             match s_metadata first with
             | Some _ => ms <- third_elements (first :: rest) ;; Ok (Some ms)
             | None => Ok None
             end = Ok metadata).
  { destruct (s_metadata first) eqn:Hf.
    - destruct Hmeta as [Hn | Hall]; [discriminate |].
      destruct (third_elements_total _ Hall) as [ms ->]. simpl. eauto.
    - eauto. }
  destruct Hm as [metadata ->]. rewrite bind_Ok.
  change (map s_audio (first :: rest))
    with (s_audio first :: map s_audio rest).
  rewrite stack_total.
  2:{ inversion Hshape as [| ? ? _ Hrest]; subst.
      apply Forall_forall. intros b Hb. apply in_map_iff in Hb.
      destruct Hb as (s & <- & Hs).
      rewrite Forall_forall in Hrest. now apply Hrest. }
  rewrite bind_Ok.
  destruct (py_max (map len (map s_annot (first :: rest)))) as [m |] eqn:Hmax;
    [| discriminate Hmax].
  rewrite bind_Ok.
  apply py_max_spec in Hmax. destruct Hmax as [Hin Hall].
  assert (Hbound : Forall (fun s => len (s_annot s) <= m) (first :: rest)).
  { apply Forall_forall. intros s Hs. rewrite Forall_forall in Hall.
    apply Hall. rewrite map_map. apply in_map_iff. eauto. }
  assert (Hattained : Exists (fun s => len (s_annot s) = m) (first :: rest)).
  { rewrite map_map in Hin. apply in_map_iff in Hin.
    destruct Hin as (s & Hs & Hin). apply Exists_exists. eauto. }
  set (data := first :: rest) in *.
  destruct (Z.gtb_spec m 0) as [Hpos | Hzero].
  - eexists _, _, metadata, m. split; [reflexivity |].
    split; [lia |]. split; [exact Hbound |]. split; [now right |].
    split; [now rewrite !length_map |].
    intros i s Hs. eexists. split.
    { rewrite nth_error_map, nth_error_map, Hs. reflexivity. }
    apply padded_slice.
    rewrite Forall_forall in Hbound. apply Hbound.
    now apply nth_error_In in Hs.
  - eexists _, _, metadata, 1. split; [reflexivity |].
    assert (Hempty : forall s, In s data -> s_annot s = []).
    { intros s Hs. rewrite Forall_forall in Hbound.
      specialize (Hbound s Hs). destruct (s_annot s); [reflexivity |].
      unfold len in Hbound. simpl in Hbound. lia. }
    split; [lia |]. split.
    { apply Forall_forall. intros s Hs. rewrite (Hempty s Hs).
      unfold len. simpl. lia. }
    split; [now left |].
    split; [now rewrite !length_map |].
    intros i s Hs. eexists. split.
    { rewrite nth_error_map, nth_error_map, Hs. reflexivity. }
    rewrite (Hempty s) by now apply nth_error_In in Hs.
    repeat split.
    intros [| j] _ Hj; [reflexivity | lia].
Qed.

Lemma collater_pads_with_sentinel_witness :
  exists new_audios new_annots metadata,
    collater batch_0_3_1 = Ok (new_audios, new_annots, metadata)
    /\ List.length new_annots = 3%nat
    /\ Forall (fun rows => len rows = 3) new_annots.
Proof.
  destruct (collater_pads_with_sentinel
              batch_0_3_1 (mkSample [[Qc_of_Z 1; Qc_of_Z 0]] [] None))
    as (new_audios & new_annots & metadata & rows_count
        & Hrun & Hone & Hbound & Hattained & Hlen & Hrows).
  - reflexivity.
  - repeat constructor.
  - left. reflexivity.
  - assert (Hcount : rows_count = 3).
    { inversion Hbound as [| ? ? _ Hb1]; subst.
      inversion Hb1 as [| ? ? Hge _]; subst.
      unfold len in Hge; simpl in Hge.
      destruct Hattained as [-> | Hex]; [lia |].
      apply Exists_exists in Hex. destruct Hex as (s & Hs & Heq).
      simpl in Hs. destruct Hs as [<- | [<- | [<- | []]]];
        unfold len in Heq; simpl in Heq; lia. }
    exists new_audios, new_annots, metadata.
    split; [exact Hrun |]. split; [exact Hlen |].
    apply Forall_forall. intros rows Hin.
    apply In_nth_error in Hin. destruct Hin as [i Hi].
    assert (Hsome : nth_error batch_0_3_1 i <> None).
    { apply nth_error_Some. rewrite <- Hlen. apply nth_error_Some.
      congruence. }
    destruct (nth_error batch_0_3_1 i) as [s |] eqn:Hs; [| congruence].
    destruct (Hrows i s Hs) as (rows' & Hi' & Hl & _).
    rewrite Hi in Hi'. injection Hi' as <-. now rewrite Hl.
Defined.

(** The scenario of the collator contract, by evaluation: interval counts
    0, 3 and 1 give three slices of three rows. *)
Example collater_batch_0_3_1 :
  collater batch_0_3_1
  = Ok (map s_audio batch_0_3_1,
        [ [sentinel_row; sentinel_row; sentinel_row];
          [(0, 4, 0); (0, 2, 1); (2, 4, 1)];
          [(5, 9, 1); sentinel_row; sentinel_row] ],
        None).
Proof. vm_compute. reflexivity. Qed.

(** ** Downsampling backbone *)

Import dsTCN.

Lemma dsTCNBlock_init_channels
      (i o k s d : Z) (nt : option string) (act : string) :
  let b := dsTCNBlock_init i o k s d nt act in
  in_ch b = i /\ out_ch b = o /\ stride b = s
  /\ conv1 b = mkConv1d i o k s d (((k - 1) * d) / 2)
  /\ res_conv b = mkConv1d i o 1 s 1 0.
Proof.
  unfold dsTCNBlock_init.
  destruct nt as [nt |];
    [destruct (String.eqb nt "BatchNorm"), (String.eqb nt "GroupNorm") |];
    repeat split.
Qed.

Lemma build_blocks_closed_form (hp : hparams) :
  0 < stack_size hp ->
  forall m k prev acc,
    ((0 < k)%nat ->
     prev = channel_width hp + (Z.of_nat k - 1) * channel_growth hp) ->
    build_blocks hp (map Z.of_nat (seq k m)) prev acc
    = Ok (acc ++ map (block_at hp) (map Z.of_nat (seq k m))).
Proof.
  intros Hs. induction m as [| m IH]; intros k prev acc Hprev; simpl.
  - now rewrite app_nil_r.
  - destruct (Z.eqb_spec (stack_size hp) 0) as [Hz | _]; [lia |].
    pose proof (Z.mod_pos_bound (Z.of_nat k) (stack_size hp) Hs) as Hmod.
    destruct (Z.ltb_spec (Z.of_nat k mod stack_size hp) 0) as [Hneg | _];
      [lia |].
    rewrite IH.
    + rewrite <- app_assoc. simpl. unfold block_at at 2.
      destruct (Z.eqb_spec (Z.of_nat k) 0) as [Hk | Hk].
      * rewrite Hk. change (0 =? 0) with true. cbv iota.
        replace (channel_width hp + 0 * channel_growth hp)
          with (channel_width hp) by lia.
        reflexivity.
      * rewrite Hprev by lia.
        replace (channel_width hp + (Z.of_nat k - 1) * channel_growth hp
                 + channel_growth hp)
          with (channel_width hp + Z.of_nat k * channel_growth hp) by lia.
        reflexivity.
    + intros _.
      change (Z.pos (Pos.of_succ_nat k)) with (Z.of_nat (S k)).
      rewrite Nat2Z.inj_succ.
      destruct (Z.eqb_spec (Z.of_nat k) 0) as [Hk | Hk].
      * rewrite Hk. lia.
      * rewrite Hprev by lia. lia.
Qed.

Lemma nth_error_range (n : Z) (i : nat) (x : Z) :
  nth_error (range n) i = Some x -> x = Z.of_nat i.
Proof.
  unfold range. rewrite nth_error_map.
  destruct (nth_error (seq 0 (Z.to_nat n)) i) as [j |] eqn:Hj;
    simpl; [| discriminate].
  intros [= <-].
  assert (Hlt : (i < List.length (seq 0 (Z.to_nat n)))%nat)
    by (apply nth_error_Some; congruence).
  rewrite length_seq in Hlt.
  pose proof (nth_error_nth _ _ 0%nat Hj) as Hnth.
  rewrite seq_nth in Hnth by exact Hlt. simpl in Hnth. now subst.
Qed.

Lemma nth_error_blocks (hp : hparams) (i : nat) (b : dsTCNBlock) :
  nth_error (map (block_at hp) (range (nblocks hp))) i = Some b ->
  b = block_at hp (Z.of_nat i).
Proof.
  rewrite nth_error_map.
  destruct (nth_error (range (nblocks hp)) i) as [x |] eqn:Hx;
    simpl; [| discriminate].
  apply nth_error_range in Hx. now intros [= <-]; subst.
Qed.

(** C8: the constructor builds max(nblocks, 0) blocks; block 0 maps the
    configured input channels to channel_width; block n + 1 takes block
    n's output channel count as input and adds channel_growth to it; and
    every block's shortcut is a 1x1 convolution with the block's stride
    from in_ch to out_ch, the output channel count of the main
    convolution. *)
Theorem backbone_channel_chain (hp : hparams) :
  0 < stack_size hp ->
  exists blocks,
    dsTCNModel_init hp = Ok blocks
    /\ len blocks = Z.max 0 (nblocks hp)
    /\ (forall b, nth_error blocks 0 = Some b ->
                  in_ch b = ninputs hp /\ out_ch b = channel_width hp)
    /\ (forall n b b',
          nth_error blocks n = Some b -> nth_error blocks (S n) = Some b' ->
          in_ch b' = out_ch b /\ out_ch b' = out_ch b + channel_growth hp)
    /\ Forall (fun b =>
                 res_conv b = mkConv1d (in_ch b) (out_ch b) 1 (stride b) 1 0
                 /\ in_channels (conv1 b) = in_ch b
                 /\ out_channels (conv1 b) = out_channels (res_conv b))
              blocks.
Proof.
  intros Hs. exists (map (block_at hp) (range (nblocks hp))).
  split.
  { unfold dsTCNModel_init, range.
    rewrite build_blocks_closed_form by (auto; lia). reflexivity. }
  split.
  { unfold len, range. rewrite !length_map, length_seq. lia. }
  split.
  { intros b Hb. apply nth_error_blocks in Hb. subst b.
    unfold block_at.
    destruct (dsTCNBlock_init_channels
                (if Z.of_nat 0 =? 0 then ninputs hp
                 else channel_width hp
                      + (Z.of_nat 0 - 1) * channel_growth hp)
                (channel_width hp + Z.of_nat 0 * channel_growth hp)
                (hp_kernel_size hp) (hp_stride hp)
                (dilation_growth hp ^ (Z.of_nat 0 mod stack_size hp))
                (hp_norm_type hp) (hp_act_type hp))
      as (Hi & Ho & _).
    rewrite Hi, Ho. simpl. split; [reflexivity | lia]. }
  split.
  { intros n b b' Hb Hb'.
    apply nth_error_blocks in Hb. apply nth_error_blocks in Hb'.
    subst b b'. unfold block_at.
    match goal with
    | |- in_ch (dsTCNBlock_init ?i ?o ?k ?s ?d ?nt ?a) = _ /\ _ =>
        destruct (dsTCNBlock_init_channels i o k s d nt a)
          as (Hi' & Ho' & _)
    end.
    match goal with
    | |- _ = out_ch (dsTCNBlock_init ?i ?o ?k ?s ?d ?nt ?a) /\ _ =>
        destruct (dsTCNBlock_init_channels i o k s d nt a)
          as (_ & Ho & _)
    end.
    rewrite Hi', Ho', Ho.
    destruct (Z.eqb_spec (Z.of_nat (S n)) 0) as [Hz | _]; [lia |].
    split; lia. }
  apply Forall_forall. intros b Hb.
  apply in_map_iff in Hb. destruct Hb as (n & <- & _).
  unfold block_at.
  match goal with
  | |- res_conv (dsTCNBlock_init ?i ?o ?k ?s ?d ?nt ?a) = _ /\ _ =>
      destruct (dsTCNBlock_init_channels i o k s d nt a)
        as (Hi & Ho & Hst & Hc & Hr)
  end.
  rewrite Hi, Ho, Hst, Hc, Hr. repeat split.
Qed.

Lemma backbone_channel_chain_witness :
  exists blocks,
    dsTCNModel_init default_hparams = Ok blocks
    /\ len blocks = 8
    /\ map in_ch blocks = [1; 32; 33; 34; 35; 36; 37; 38]
    /\ map out_ch blocks = [32; 33; 34; 35; 36; 37; 38; 39].
Proof.
  destruct (backbone_channel_chain default_hparams)
    as (blocks & Hrun & Hlen & _).
  - reflexivity.
  - exists blocks. split; [exact Hrun |]. split; [exact Hlen |].
    assert (Hv : dsTCNModel_init default_hparams
                 = Ok (map (block_at default_hparams) (range 8)))
      by (vm_compute; reflexivity).
    rewrite Hv in Hrun. injection Hrun as <-.
    split; vm_compute; reflexivity.
Defined.

(** ** Target Renderer *)

Lemma this_of_Z (z : Z) : (this (Qc_of_Z z) == inject_Z z)%Q.
Proof. unfold Qc_of_Z, Q2Qc. cbn [this]. apply Qred_correct. Qed.


Lemma this_inv (x : Qc) : (this (/ x)%Qc == / this x)%Q.
Proof. unfold Qcinv, Q2Qc. cbn [this]. apply Qred_correct. Qed.

Lemma Qc_of_Z_nonneg (z : Z) : 0 <= z -> (0 <= Qc_of_Z z)%Qc.
Proof.
  intros H. unfold Qcle. rewrite this_of_Z.
  change (this 0%Qc) with (inject_Z 0).
  rewrite <- (Zle_Qle 0 z). exact H.
Qed.


Lemma Qc_inv_nonneg (x : Qc) : (0 < x)%Qc -> (0 <= / x)%Qc.
Proof.
  unfold Qclt, Qcle. intros Hx. rewrite this_inv.
  apply Qinv_le_0_compat. now apply Qlt_le_weak.
Qed.


Lemma Qc_ltb_lt (x y : Qc) : Qc_ltb x y = true <-> (x < y)%Qc.
Proof.
  unfold Qc_ltb, Qccompare, Qclt. rewrite Qlt_alt.
  destruct (this x ?= this y)%Q; split; congruence.
Qed.

Lemma Qc_eqb_pos (x : Qc) : (0 < x)%Qc -> Qc_eqb x 0%Qc = false.
Proof.
  unfold Qclt, Qc_eqb. intros H.
  destruct (Qeq_bool (this x) (this 0%Qc)) eqn:E; [| reflexivity].
  apply Qeq_bool_iff in E. rewrite E in H.
  exfalso. exact (Qlt_irrefl _ H).
Qed.

(** On a non-negative value truncation is the floor. *)
Lemma Qc_trunc_floor (x : Qc) : (0 <= x)%Qc -> Qc_trunc x = Qfloor x.
Proof.
  unfold Qcle, Qc_trunc, Qfloor. destruct (this x) as [n d].
  unfold Qle; simpl. intros H.
  apply Z.quot_div_nonneg; lia.
Qed.

Lemma Qfloor_nonneg (x : Qc) : (0 <= x)%Qc -> 0 <= Qfloor x.
Proof.
  unfold Qcle. intros H.
  apply Qfloor_resp_le in H. exact H.
Qed.

Lemma Qfloor_below (x : Qc) (n : Z) :
  (x < Qc_of_Z n)%Qc -> Qfloor x < n.
Proof.
  unfold Qclt. rewrite this_of_Z.
  intros H. rewrite Zlt_Qlt.
  eapply Qle_lt_trans; [apply Qfloor_le | exact H].
Qed.

Lemma index_put_ones (n : Z) (idx : list Z) :
  0 <= n -> Forall (fun i => 0 <= i < n) idx ->
  exists row,
    index_put (zeros n) idx 1 = Ok row
    /\ len row = n
    /\ (forall k, nth k row 0 = 0 \/ nth k row 0 = 1)
    /\ (forall k, nth k row 0 = 1 <-> In (Z.of_nat k) idx).
Proof.
  intros Hn Hidx.
  destruct (index_put_accepts 1 idx (zeros n)) as [row Hrow].
  { rewrite len_zeros by exact Hn.
    eapply Forall_impl; [| exact Hidx]. simpl; intros; lia. }
  exists row. split; [exact Hrow |].
  split; [now rewrite (index_put_length _ _ _ _ Hrow), len_zeros |].
  assert (Hnorm : forall i, In i idx -> norm_index n i = Ok i).
  { intros i Hi. rewrite Forall_forall in Hidx. specialize (Hidx i Hi).
    unfold norm_index.
    destruct (Z.ltb_spec i (- n)), (Z.leb_spec n i); simpl; try lia.
    destruct (Z.ltb_spec i 0); [lia | reflexivity]. }
  assert (Hcases : forall k, nth k row 0 = 0 \/ In (Z.of_nat k) idx).
  { intros k.
    destruct (index_put_cases 1 0 _ _ _ k Hrow) as [Hsame | (i & Hin & Hi)].
    - left. now rewrite Hsame, nth_zeros.
    - right. rewrite len_zeros in Hi by exact Hn.
      rewrite (Hnorm i Hin) in Hi. now injection Hi as <-. }
  assert (Hwritten : forall k, In (Z.of_nat k) idx -> nth k row 0 = 1).
  { intros k Hin.
    rewrite <- (Nat2Z.id k) at 1.
    apply (index_put_written 1 0 idx (zeros n) row (Z.of_nat k));
      [exact Hrow | exact Hin |].
    rewrite len_zeros by exact Hn. now apply Hnorm. }
  split.
  - intros k. destruct (Hcases k) as [H0 | Hin]; [now left |].
    right. now apply Hwritten.
  - intros k. split; [| apply Hwritten].
    intros H1. destruct (Hcases k) as [H0 | Hin]; [congruence | exact Hin].
Qed.

(** ** Binary64 arithmetic *)

Lemma bind_inv {A B : Type} (m : result A) (k : A -> result B) (b : B) :
  bind m k = Ok b -> exists a, m = Ok a /\ k a = Ok b.
Proof.
  destruct m as [a | e]; simpl; [| discriminate].
  intros H. now exists a.
Qed.

Lemma bind_raise {A B : Type} (m : result A) (k : A -> result B) (e : exn) :
  bind m k = Raise e ->
  m = Raise e \/ exists a, m = Ok a /\ k a = Raise e.
Proof.
  destruct m as [a | e']; simpl.
  - intros H. right. now exists a.
  - intros [= ->]. now left.
Qed.

Lemma Qc_eqb_eq (x y : Qc) : Qc_eqb x y = true -> x = y.
Proof.
  unfold Qc_eqb. intros H. apply Qeq_bool_iff in H.
  now apply Qc_is_canon.
Qed.

Lemma finite_or_raise_Ok (x y : spec_float) :
  finite_or_raise x = Ok y -> y = x.
Proof. destruct x; simpl; congruence. Qed.

Lemma finite_or_raise_exn (x : spec_float) (e : exn) :
  finite_or_raise x = Raise e -> e = OutsideModel.
Proof. destruct x; simpl; congruence. Qed.

Lemma float_of_Z_value (z : Z) (x : spec_float) :
  float_of_Z z = Ok x -> float_value x = Qc_of_Z z.
Proof.
  unfold float_of_Z.
  destruct (Qc_eqb _ _) eqn:E; [| discriminate].
  intros H. apply finite_or_raise_Ok in H. subst x.
  now apply Qc_eqb_eq.
Qed.

Lemma float_of_Z_exn (z : Z) (e : exn) :
  float_of_Z z = Raise e -> e = OutsideModel.
Proof.
  unfold float_of_Z. destruct (Qc_eqb _ _).
  - apply finite_or_raise_exn.
  - congruence.
Qed.

Lemma fdiv_exn (x y : spec_float) (e : exn) :
  fdiv x y = Raise e -> e = OutsideModel.
Proof. apply finite_or_raise_exn. Qed.

Lemma fmul_exn (x y : spec_float) (e : exn) :
  fmul x y = Raise e -> e = OutsideModel.
Proof. apply finite_or_raise_exn. Qed.

Lemma float_of_Qc_value (q : Qc) (x : spec_float) :
  float_of_Qc q = Ok x -> float_value x = q.
Proof.
  unfold float_of_Qc. intros H.
  apply bind_inv in H as (n & _ & H).
  apply bind_inv in H as (d & _ & H).
  apply bind_inv in H as (y & _ & H).
  destruct (Qc_eqb (float_value y) q) eqn:E; [| discriminate].
  injection H as <-. now apply Qc_eqb_eq.
Qed.

Lemma float_of_Qc_exn (q : Qc) (e : exn) :
  float_of_Qc q = Raise e -> e = OutsideModel.
Proof.
  unfold float_of_Qc. intros H.
  apply bind_raise in H as [H | (n & _ & H)];
    [now apply float_of_Z_exn in H |].
  apply bind_raise in H as [H | (d & _ & H)];
    [now apply float_of_Z_exn in H |].
  apply bind_raise in H as [H | (y & _ & H)];
    [now apply fdiv_exn in H |].
  destruct (Qc_eqb (float_value y) q); congruence.
Qed.

(** The sign of a finite float is the sign of its value. *)
Lemma float_value_negative (m : positive) (e : Z) :
  (float_value (S754_finite true m e) < 0)%Qc.
Proof.
  unfold float_value, Qclt.
  destruct (0 <=? e) eqn:E.
  - rewrite this_of_Z. change (this 0%Qc) with (inject_Z 0).
    rewrite <- Zlt_Qlt. apply Z.leb_le in E.
    apply Z.mul_neg_pos; [lia | apply Z.pow_pos_nonneg; lia].
  - cbn [this Q2Qc]. rewrite (Qred_correct (Z.neg m # _)).
    unfold Qlt; simpl. lia.
Qed.

Lemma float_value_positive (m : positive) (e : Z) :
  (0 < float_value (S754_finite false m e))%Qc.
Proof.
  unfold float_value, Qclt.
  destruct (0 <=? e) eqn:E.
  - rewrite this_of_Z. change (this 0%Qc) with (inject_Z 0).
    rewrite <- Zlt_Qlt. apply Z.leb_le in E.
    apply Z.mul_pos_pos; [lia | apply Z.pow_pos_nonneg; lia].
  - cbn [this Q2Qc]. rewrite (Qred_correct (Z.pos m # _)).
    unfold Qlt; simpl. lia.
Qed.

Lemma Qc_lt_le_absurd (x : Qc) : (x < 0)%Qc -> (0 <= x)%Qc -> False.
Proof.
  unfold Qclt, Qcle. intros H1 H2.
  exact (Qlt_irrefl _ (Qlt_le_trans _ _ _ H1 H2)).
Qed.

Lemma Qc_zero_nonneg : (0 <= Q2Qc 0)%Qc.
Proof. unfold Qcle. simpl. apply Qle_refl. Qed.

(** Rounding keeps the sign it is given. *)
Lemma binary_round_aux_nonneg (mx ex : Z) (lx : location) (y : spec_float) :
  finite_or_raise (binary_round_aux prec emax false mx ex lx) = Ok y ->
  (0 <= float_value y)%Qc.
Proof.
  unfold binary_round_aux.
  destruct (shr_fexp prec emax mx ex lx) as [mrs' e'].
  destruct (shr_fexp prec emax _ e' loc_Exact) as [mrs'' e''].
  destruct (shr_m mrs'') as [| m | m].
  - intros [= <-]. apply Qc_zero_nonneg.
  - destruct (e'' <=? emax - prec).
    + intros [= <-]. apply Qclt_le_weak, float_value_positive.
    + discriminate.
  - discriminate.
Qed.

Lemma fdiv_nonneg (x y z : spec_float) :
  fdiv x y = Ok z ->
  (0 <= float_value x)%Qc -> (0 < float_value y)%Qc ->
  (0 <= float_value z)%Qc.
Proof.
  unfold fdiv. intros H Hx Hy.
  destruct x as [sx | sx | | sx mx ex], y as [sy | sy | | sy my ey];
    try discriminate H;
    try (injection H as <-; apply Qc_zero_nonneg).
  destruct sx;
    [exfalso; exact (Qc_lt_le_absurd _ (float_value_negative mx ex) Hx) |].
  destruct sy;
    [exfalso;
     exact (Qc_lt_le_absurd _ (float_value_negative my ey)
                            (Qclt_le_weak _ _ Hy)) |].
  unfold SFdiv in H.
  destruct (SFdiv_core_binary prec emax (Z.pos mx) ex (Z.pos my) ey)
    as [[mz ez] lz].
  now apply binary_round_aux_nonneg in H.
Qed.

Lemma fmul_nonneg (x y z : spec_float) :
  fmul x y = Ok z ->
  (0 <= float_value x)%Qc -> (0 <= float_value y)%Qc ->
  (0 <= float_value z)%Qc.
Proof.
  unfold fmul. intros H Hx Hy.
  destruct x as [sx | sx | | sx mx ex], y as [sy | sy | | sy my ey];
    try discriminate H;
    try (injection H as <-; apply Qc_zero_nonneg).
  destruct sx;
    [exfalso; exact (Qc_lt_le_absurd _ (float_value_negative mx ex) Hx) |].
  destruct sy;
    [exfalso; exact (Qc_lt_le_absurd _ (float_value_negative my ey) Hy) |].
  unfold SFmul in H.
  now apply binary_round_aux_nonneg in H.
Qed.

Lemma map_result_exn {A B : Type} (f : A -> result B) (l : list A)
      (P : exn -> Prop) :
  (forall a e, f a = Raise e -> P e) ->
  forall e, map_result f l = Raise e -> P e.
Proof.
  intros Hf. induction l as [| a rest IH]; simpl; [discriminate |].
  intros e H.
  apply bind_raise in H as [H | (y & _ & H)]; [now apply (Hf a) |].
  apply bind_raise in H as [H | (ys & _ & H)]; [now apply IH |].
  discriminate.
Qed.

Lemma map_result_Ok {A B : Type} (f : A -> result B) (l : list A)
      (ys : list B) :
  map_result f l = Ok ys ->
  forall y, In y ys <-> exists a, In a l /\ f a = Ok y.
Proof.
  revert ys. induction l as [| a rest IH]; simpl; intros ys H.
  - injection H as <-. intros y. split; [intros [] | intros (a & [] & _)].
  - apply bind_inv in H as (b & Hb & H).
    apply bind_inv in H as (bs & Hbs & H). injection H as <-.
    intros y. simpl. rewrite (IH bs Hbs y). split.
    + intros [<- | (a' & Hin & Ha')].
      * exists a. split; [now left | exact Hb].
      * exists a'. split; [now right | exact Ha'].
    + intros (a' & [<- | Hin] & Ha').
      * left. congruence.
      * right. now exists a'.
Qed.

Section Renderer.

Variable self : BeatDataset.t.
Hypothesis rate_positive : (0 < audio_sample_rate self)%Qc.
Hypothesis factor_positive : (0 < target_factor self)%Qc.

Lemma target_sample_rate_exn (e : exn) :
  target_sample_rate self = Raise e -> e = OutsideModel.
Proof.
  unfold target_sample_rate. rewrite (Qc_eqb_pos _ factor_positive).
  intros H.
  apply bind_raise in H as [H | (sr & _ & H)];
    [now apply float_of_Qc_exn in H |].
  apply bind_raise in H as [H | (f & _ & H)];
    [now apply float_of_Qc_exn in H |].
  now apply fdiv_exn in H.
Qed.

Lemma target_sample_rate_nonneg (tsr : spec_float) :
  target_sample_rate self = Ok tsr -> (0 <= float_value tsr)%Qc.
Proof.
  unfold target_sample_rate. rewrite (Qc_eqb_pos _ factor_positive).
  intros H.
  apply bind_inv in H as (sr & Hsr & H).
  apply bind_inv in H as (f & Hf & H).
  apply float_of_Qc_value in Hsr, Hf.
  apply (fdiv_nonneg _ _ _ H).
  - rewrite Hsr. now apply Qclt_le_weak.
  - now rewrite Hf.
Qed.

Lemma seconds_exn (p : Z) (e : exn) :
  seconds self p = Raise e -> e = OutsideModel.
Proof.
  unfold seconds. intros H.
  apply bind_raise in H as [H | (n & _ & H)];
    [now apply float_of_Z_exn in H |].
  apply bind_raise in H as [H | (sr & _ & H)];
    [now apply float_of_Qc_exn in H |].
  now apply fdiv_exn in H.
Qed.

Lemma seconds_nonneg (p : Z) (x : spec_float) :
  0 <= p -> seconds self p = Ok x -> (0 <= float_value x)%Qc.
Proof.
  unfold seconds. intros Hp H.
  apply bind_inv in H as (n & Hn & H).
  apply bind_inv in H as (sr & Hsr & H).
  apply float_of_Z_value in Hn. apply float_of_Qc_value in Hsr.
  apply (fdiv_nonneg _ _ _ H).
  - rewrite Hn. now apply Qc_of_Z_nonneg.
  - now rewrite Hsr.
Qed.

(** The indices the renderer writes: the truncations of the rescaled
    positions below the target length, all of them inside the target. *)
Lemma rendered_indices (tsr bound : spec_float) (N : Z) (ps : list Z)
      (secs scaled : list spec_float) :
  target_sample_rate self = Ok tsr ->
  float_value bound = Qc_of_Z N ->
  Forall (fun p => 0 <= p) ps ->
  map_result (seconds self) ps = Ok secs ->
  map_result (fun s => fmul s tsr) secs = Ok scaled ->
  let idx :=
    map float_trunc
        (filter (fun x => Qc_ltb (float_value x) (float_value bound))
                scaled) in
  Forall (fun i => 0 <= i < N) idx
  /\ forall k, In k idx <->
               exists p x, In p ps /\ rescale self p = Ok x
                           /\ (float_value x < Qc_of_Z N)%Qc
                           /\ float_trunc x = k.
Proof.
  intros Htsr Hbound Hps Hsecs Hscaled idx.
  assert (Hiff : forall k, In k idx <->
                   exists p x, In p ps /\ rescale self p = Ok x
                               /\ (float_value x < Qc_of_Z N)%Qc
                               /\ float_trunc x = k).
  { intros k. unfold idx. rewrite in_map_iff. split.
    - intros (x & <- & Hx). apply filter_In in Hx as [Hx Hlt].
      apply Qc_ltb_lt in Hlt. rewrite Hbound in Hlt.
      apply (map_result_Ok _ _ _ Hscaled) in Hx as (sec & Hsec & Hmul).
      apply (map_result_Ok _ _ _ Hsecs) in Hsec as (p & Hp & Hsec).
      exists p, x. split; [exact Hp |]. split; [| now split].
      unfold rescale. now rewrite Htsr, bind_Ok, Hsec, bind_Ok.
    - intros (p & x & Hp & Hx & Hlt & <-). exists x.
      split; [reflexivity |]. apply filter_In. split.
      + unfold rescale in Hx. rewrite Htsr, bind_Ok in Hx.
        apply bind_inv in Hx as (sec & Hsec & Hmul).
        apply (map_result_Ok _ _ _ Hscaled). exists sec.
        split; [| exact Hmul].
        apply (map_result_Ok _ _ _ Hsecs). now exists p.
      + apply Qc_ltb_lt. now rewrite Hbound. }
  split; [| exact Hiff].
  apply Forall_forall. intros k Hk.
  apply Hiff in Hk as (p & x & Hp & Hx & Hlt & <-).
  rewrite Forall_forall in Hps.
  assert (Hnn : (0 <= float_value x)%Qc).
  { unfold rescale in Hx. rewrite Htsr, bind_Ok in Hx.
    apply bind_inv in Hx as (sec & Hsec & Hmul).
    apply (fmul_nonneg _ _ _ Hmul).
    - exact (seconds_nonneg p sec (Hps p Hp) Hsec).
    - now apply target_sample_rate_nonneg. }
  unfold float_trunc. rewrite (Qc_trunc_floor _ Hnn). split.
  - now apply Qfloor_nonneg.
  - now apply Qfloor_below.
Qed.

(** C5: for a positive sample rate and downsample factor, an audio length
    and event positions that are not negative, and as long as every
    number involved is a finite binary64 number, the renderer returns a
    target whose two rows have length
    floor(audio_duration_seconds * target_rate) + 1, the duration, the
    rate and their product being the binary64 values the code computes,
    and hold only 0 and 1; index k holds 1 exactly when some event
    rescales below that length and truncates to k, so events at or
    beyond the length are dropped and coinciding events leave a single
    1; without events the row is all zero. *)
Theorem render_target_contract
        (n_audio : Z) (beat_samples downbeat_samples : list Z) :
  0 <= n_audio ->
  Forall (fun p => 0 <= p) beat_samples ->
  Forall (fun p => 0 <= p) downbeat_samples ->
  render_target self n_audio beat_samples downbeat_samples
  <> Raise OutsideModel ->
  exists tgt audio_duration_seconds target_rate product,
    render_target self n_audio beat_samples downbeat_samples = Ok tgt
    /\ seconds self n_audio = Ok audio_duration_seconds
    /\ target_sample_rate self = Ok target_rate
    /\ fmul audio_duration_seconds target_rate = Ok product
    /\ let N := Qfloor (float_value product) + 1 in
       len (beats tgt) = N /\ len (downbeats tgt) = N
       /\ (forall k, (nth k (beats tgt) 0 = 0 \/ nth k (beats tgt) 0 = 1)
                     /\ (nth k (downbeats tgt) 0 = 0
                         \/ nth k (downbeats tgt) 0 = 1))
       /\ (forall k, nth k (beats tgt) 0 = 1 <->
                     exists p x, In p beat_samples
                                 /\ rescale self p = Ok x
                                 /\ (float_value x < Qc_of_Z N)%Qc
                                 /\ float_trunc x = Z.of_nat k)
       /\ (forall k, nth k (downbeats tgt) 0 = 1 <->
                     exists p x, In p downbeat_samples
                                 /\ rescale self p = Ok x
                                 /\ (float_value x < Qc_of_Z N)%Qc
                                 /\ float_trunc x = Z.of_nat k)
       /\ (beat_samples = [] -> beats tgt = zeros N)
       /\ (downbeat_samples = [] -> downbeats tgt = zeros N).
Proof.
  intros Hn Hb Hd Hfin. unfold render_target in Hfin |- *.
  destruct (target_sample_rate self) as [tsr | e] eqn:Htsr;
    [| apply target_sample_rate_exn in Htsr; subst e; now elim Hfin].
  rewrite bind_Ok in Hfin |- *.
  rewrite (Qc_eqb_pos _ rate_positive) in Hfin |- *.
  destruct (map_result (seconds self) beat_samples)
    as [beat_sec | e] eqn:Hbsec;
    [| apply (map_result_exn _ _ (fun e => e = OutsideModel) seconds_exn)
         in Hbsec; subst e; now elim Hfin].
  rewrite bind_Ok in Hfin |- *.
  destruct (map_result (seconds self) downbeat_samples)
    as [downbeat_sec | e] eqn:Hdsec;
    [| apply (map_result_exn _ _ (fun e => e = OutsideModel) seconds_exn)
         in Hdsec; subst e; now elim Hfin].
  rewrite bind_Ok in Hfin |- *.
  destruct (seconds self n_audio) as [t_sec | e] eqn:Htsec;
    [| apply seconds_exn in Htsec; subst e; now elim Hfin].
  rewrite bind_Ok in Hfin |- *.
  destruct (fmul t_sec tsr) as [product | e] eqn:Hprod;
    [| apply fmul_exn in Hprod; subst e; now elim Hfin].
  rewrite bind_Ok in Hfin |- *.
  assert (Hnn : (0 <= float_value product)%Qc).
  { apply (fmul_nonneg _ _ _ Hprod).
    - exact (seconds_nonneg n_audio t_sec Hn Htsec).
    - now apply target_sample_rate_nonneg. }
  cbv zeta in Hfin |- *.
  replace (float_trunc product) with (Qfloor (float_value product))
    in Hfin |- * by (symmetry; apply (Qc_trunc_floor _ Hnn)).
  set (N := Qfloor (float_value product) + 1) in Hfin |- *.
  assert (HN0 : 0 <= N).
  { unfold N. pose proof (Qfloor_nonneg _ Hnn). lia. }
  destruct (Z.ltb_spec N 0) as [Hneg | _]; [lia |].
  destruct (map_result (fun s => fmul s tsr) beat_sec)
    as [beat_scaled | e] eqn:Hbsc;
    [| apply (map_result_exn _ _ (fun e => e = OutsideModel)
                             (fun s => fmul_exn s tsr))
         in Hbsc; subst e; now elim Hfin].
  rewrite bind_Ok in Hfin |- *.
  destruct (map_result (fun s => fmul s tsr) downbeat_sec)
    as [downbeat_scaled | e] eqn:Hdsc;
    [| apply (map_result_exn _ _ (fun e => e = OutsideModel)
                             (fun s => fmul_exn s tsr))
         in Hdsc; subst e; now elim Hfin].
  rewrite bind_Ok in Hfin |- *.
  destruct (float_of_Z N) as [bound | e] eqn:Hbound;
    [| apply float_of_Z_exn in Hbound; subst e; now elim Hfin].
  rewrite bind_Ok in Hfin |- *. clear Hfin.
  apply float_of_Z_value in Hbound.
  destruct (rendered_indices tsr bound N beat_samples beat_sec beat_scaled
                             Htsr Hbound Hb Hbsec Hbsc) as [Hbr Hbi].
  destruct (rendered_indices tsr bound N downbeat_samples downbeat_sec
                             downbeat_scaled Htsr Hbound Hd Hdsec Hdsc)
    as [Hdr Hdi].
  destruct (index_put_ones N _ HN0 Hbr) as (row0 & Hr0 & Hl0 & Hv0 & Hi0).
  destruct (index_put_ones N _ HN0 Hdr) as (row1 & Hr1 & Hl1 & Hv1 & Hi1).
  rewrite Hr0, bind_Ok, Hr1, bind_Ok.
  exists (mkTarget row0 row1), t_sec, tsr, product.
  cbn [beats downbeats].
  split; [reflexivity |]. split; [reflexivity |].
  split; [reflexivity |]. split; [exact Hprod |].
  split; [exact Hl0 |]. split; [exact Hl1 |].
  split; [intros k; split; [apply Hv0 | apply Hv1] |].
  split; [intros k; rewrite Hi0; apply Hbi |].
  split; [intros k; rewrite Hi1; apply Hdi |].
  split.
  - intros ->. simpl in Hbsec. injection Hbsec as <-.
    simpl in Hbsc. injection Hbsc as <-.
    simpl in Hr0. now injection Hr0 as <-.
  - intros ->. simpl in Hdsec. injection Hdsec as <-.
    simpl in Hdsc. injection Hdsc as <-.
    simpl in Hr1. now injection Hr1 as <-.
Qed.

End Renderer.

Lemma render_target_contract_witness :
  exists tgt,
    render_target (ballroom_44100 "train") 2560
                  [0; 256; 300; 512; 100000] [0; 512] = Ok tgt
    /\ len (beats tgt) = 11
    /\ beats tgt = [1; 1; 1; 0; 0; 0; 0; 0; 0; 0; 0]
    /\ downbeats tgt = [1; 0; 1; 0; 0; 0; 0; 0; 0; 0; 0].
Proof.
  assert (Hv : render_target (ballroom_44100 "train") 2560
                             [0; 256; 300; 512; 100000] [0; 512]
               = Ok (mkTarget [1; 1; 1; 0; 0; 0; 0; 0; 0; 0; 0]
                              [1; 0; 1; 0; 0; 0; 0; 0; 0; 0; 0]))
    by (vm_compute; reflexivity).
  destruct (render_target_contract (ballroom_44100 "train")
              ltac:(vm_compute; reflexivity) ltac:(vm_compute; reflexivity)
              2560 [0; 256; 300; 512; 100000] [0; 512])
    as (tgt & t_sec & tsr & product & Hrun & _ & _ & _ & Hlen & _).
  - lia.
  - repeat constructor; lia.
  - repeat constructor; lia.
  - rewrite Hv. discriminate.
  - exists tgt. split; [exact Hrun |].
    rewrite Hv in Hrun. injection Hrun as <-.
    split; [reflexivity |]. split; reflexivity.
Defined.

(** The products are rounded to binary64 before they are truncated: 3840
    samples at 44100 Hz and a factor of 256 span exactly 15 target samples,
    and the renderer returns 15 columns, with the event at sample 3840 in
    the last of them. *)
Example render_target_rounds_in_binary64 :
  render_target (ballroom_44100 "train") 3840 [3840] []
  = Ok (mkTarget [0; 0; 0; 0; 0; 0; 0; 0; 0; 0; 0; 0; 0; 0; 1]
                 [0; 0; 0; 0; 0; 0; 0; 0; 0; 0; 0; 0; 0; 0; 0]).
Proof. vm_compute. reflexivity. Qed.

(** ** Annotation Parser *)

Lemma np_max_spec (l : list Z) (m : Z) :
  np_max l = Ok m -> In m l /\ Forall (fun y => y <= m) l.
Proof.
  destruct l as [| x rest]; simpl; [discriminate |].
  intros [= <-].
  destruct (fold_left_max_spec rest x) as (Hin & Hle & Hall).
  split.
  - destruct Hin as [-> | Hin]; [now left | now right].
  - constructor; assumption.
Qed.

Lemma combine_snoc {A B : Type} (l1 : list A) (l2 : list B) (a : A) (b : B) :
  List.length l1 = List.length l2 ->
  combine (l1 ++ [a]) (l2 ++ [b]) = combine l1 l2 ++ [(a, b)].
Proof.
  revert l2. induction l1 as [| x l1 IH]; intros [| y l2] H;
    simpl in *; try discriminate; [reflexivity |].
  f_equal. apply IH. now injection H.
Qed.

Lemma load_annot_step_invariant
      (self : BeatDataset.t) (st st' : annot_state) (line : string) :
  annot_invariant st -> load_annot_step self st line = Ok st' ->
  annot_invariant st'
  /\ List.length (fst (fst st')) = S (List.length (fst (fst st))).
Proof.
  destruct st as [[bs ds] bi]. intros [Hlen Hds]. unfold load_annot_step.
  destruct (parse_line (dataset self) line) as [[time_sec beat] |];
    simpl bind; [| discriminate].
  destruct (float_of_Qc (audio_sample_rate self)) as [sr |];
    simpl bind; [| discriminate].
  destruct (fmul time_sec sr) as [product |]; simpl bind; [| discriminate].
  assert (Hc : ordinal_one_positions
                 (bs ++ [float_trunc product]) (bi ++ [beat])
               = ordinal_one_positions bs bi
                   ++ (if beat =? 1 then [float_trunc product] else [])).
  { unfold ordinal_one_positions.
    rewrite combine_snoc by exact Hlen.
    rewrite filter_app, map_app. simpl.
    destruct (beat =? 1); reflexivity. }
  destruct (beat =? 1); intros [= <-]; simpl.
  - rewrite !length_app. simpl. rewrite Hc, Hds.
    split; [split; [lia | reflexivity] | lia].
  - rewrite !length_app. simpl. rewrite Hc, Hds, app_nil_r.
    split; [split; [lia | reflexivity] | lia].
Qed.

Lemma load_annot_loop_invariant (self : BeatDataset.t) (lines : list string) :
  forall st st',
    annot_invariant st -> load_annot_loop self st lines = Ok st' ->
    annot_invariant st'
    /\ List.length (fst (fst st'))
       = (List.length (fst (fst st)) + List.length lines)%nat.
Proof.
  induction lines as [| line rest IH]; intros st st' Hinv H; simpl in H.
  - injection H as <-. split; [exact Hinv | simpl; lia].
  - destruct (load_annot_step self st line) as [st1 |] eqn:Hstep;
      simpl in H; [| discriminate].
    destruct (load_annot_step_invariant _ _ _ _ Hinv Hstep) as [Hinv1 Hl1].
    destruct (IH _ _ Hinv1 H) as [Hinv' Hl'].
    split; [exact Hinv' |]. rewrite Hl', Hl1. simpl. lia.
Qed.

(** C6: the ballroom scenario at 44100 Hz evaluates to the stated beat
    positions, downbeat positions and time signature (the times are
    parsed and multiplied by the sample rate in binary64, as the code
    does); and for every annotation file
    that parses, there is one position and one ordinal per line, the
    downbeat positions are exactly the positions of the lines whose
    ordinal is 1, and the time signature follows the maximum ordinal:
    2 gives "2/4", 3 gives "3/4", 4 gives "4/4", anything else "?". *)
Theorem load_annot_ballroom_scenario :
  load_annot (ballroom_44100 "train") ballroom_lines
  = Ok ([22050; 66150; 110250; 154350; 198450], [22050; 198450],
        [1; 2; 3; 4; 1], "4/4"%string)
  /\ forall self lines beat_samples downbeat_samples beat_indices
            time_signature,
      load_annot self lines
      = Ok (beat_samples, downbeat_samples, beat_indices, time_signature) ->
      List.length beat_samples = List.length lines
      /\ List.length beat_indices = List.length lines
      /\ downbeat_samples = ordinal_one_positions beat_samples beat_indices
      /\ exists m,
          In m beat_indices /\ Forall (fun o => o <= m) beat_indices
          /\ (m = 2 -> time_signature = "2/4"%string)
          /\ (m = 3 -> time_signature = "3/4"%string)
          /\ (m = 4 -> time_signature = "4/4"%string)
          /\ (m <> 2 -> m <> 3 -> m <> 4 -> time_signature = "?"%string).
Proof.
  split; [vm_compute; reflexivity |].
  intros self lines bs ds bi ts H. unfold load_annot in H.
  destruct (load_annot_loop self ([], [], []) lines) as [[[bs' ds'] bi'] |]
    eqn:Hloop; simpl in H; [| discriminate].
  destruct (np_max bi') as [m |] eqn:Hmax; simpl in H; [| discriminate].
  injection H as <- <- <- <-.
  assert (Hinit : annot_invariant ([], [], [])) by (split; reflexivity).
  destruct (load_annot_loop_invariant self lines _ _ Hinit Hloop)
    as [[Hlen Hds] Hcount].
  simpl in Hcount.
  apply np_max_spec in Hmax. destruct Hmax as [Hin Hall].
  split; [exact Hcount |]. split; [now rewrite <- Hlen |].
  split; [exact Hds |].
  exists m. split; [exact Hin |]. split; [exact Hall |].
  unfold guess_time_signature.
  repeat split.
  - now intros ->.
  - now intros ->.
  - now intros ->.
  - intros H2 H3 H4.
    destruct (Z.eqb_spec m 2); [contradiction |].
    destruct (Z.eqb_spec m 3); [contradiction |].
    destruct (Z.eqb_spec m 4); [contradiction | reflexivity].
Qed.

Lemma load_annot_ballroom_scenario_witness :
  [22050; 198450]
  = ordinal_one_positions [22050; 66150; 110250; 154350; 198450]
                          [1; 2; 3; 4; 1]
  /\ List.length [22050; 66150; 110250; 154350; 198450]
     = List.length ballroom_lines.
Proof.
  destruct (proj2 load_annot_ballroom_scenario
                  (ballroom_44100 "train") ballroom_lines
                  [22050; 66150; 110250; 154350; 198450] [22050; 198450]
                  [1; 2; 3; 4; 1] "4/4"%string)
    as (Hlen & _ & Hds & _).
  - vm_compute. reflexivity.
  - split; [exact Hds | exact Hlen].
Defined.

(** The times are multiplied by the sample rate in binary64 and then
    truncated: the product of 0.35 and 44100 lies just below 15435. *)
Example load_annot_multiplies_in_binary64 :
  load_annot (ballroom_44100 "train") ["0.35 1"; "0.7 2"]%string
  = Ok ([15434; 30869], [15434], [1; 2], "2/4"%string).
Proof. vm_compute. reflexivity. Qed.

(** ** Peak normalisation *)

Lemma Qc_max_cases (x y : Qc) :
  ((Qc_max x y = x /\ (y <= x)%Qc) \/ (Qc_max x y = y /\ (x <= y)%Qc)).
Proof.
  unfold Qc_max. destruct (Qc_ltb x y) eqn:E.
  - right. split; [reflexivity |].
    apply Qclt_le_weak. now apply Qc_ltb_lt.
  - left. split; [reflexivity |]. apply Qcnot_lt_le.
    intros H. apply Qc_ltb_lt in H. congruence.
Qed.

Lemma fold_left_Qc_max_spec (l : list Qc) :
  forall x,
    (fold_left Qc_max l x = x \/ In (fold_left Qc_max l x) l)
    /\ (x <= fold_left Qc_max l x)%Qc
    /\ Forall (fun y => (y <= fold_left Qc_max l x)%Qc) l.
Proof.
  induction l as [| y rest IH]; intros x; simpl.
  - repeat split; auto. apply Qcle_refl.
  - destruct (IH (Qc_max x y)) as (Hin & Hle & Hall).
    destruct (Qc_max_cases x y) as [[Hm Hyx] | [Hm Hxy]].
    + rewrite Hm in *. repeat split.
      * destruct Hin as [Heq | Hin]; [now left | now right; right].
      * exact Hle.
      * constructor; [| exact Hall]. eapply Qcle_trans; eassumption.
    + rewrite Hm in *. repeat split.
      * destruct Hin as [Heq | Hin]; [right; left; congruence
                                     | now right; right].
      * eapply Qcle_trans; eassumption.
      * constructor; assumption.
Qed.

(** [abs_max] returns the largest absolute value of a sample. *)
Lemma abs_max_spec (a : audio) (m : Qc) :
  abs_max a = Ok m ->
  (exists x, In x (List.concat a) /\ Qcabs x = m)
  /\ forall y, In y (List.concat a) -> (Qcabs y <= m)%Qc.
Proof.
  unfold abs_max. destruct (List.concat a) as [| x rest];
    [discriminate |].
  intros [= <-].
  destruct (fold_left_Qc_max_spec (map Qcabs rest) (Qcabs x))
    as (Hin & Hle & Hall).
  split.
  - destruct Hin as [Heq | Hin].
    + exists x. split; [now left | now rewrite Heq].
    + apply in_map_iff in Hin. destruct Hin as (y & Hy & Hin).
      exists y. split; [now right | exact Hy].
  - intros y [<- | Hy]; [exact Hle |].
    rewrite Forall_forall in Hall. apply Hall. now apply in_map.
Qed.

Lemma abs_max_unique (a : audio) (m : Qc) :
  (exists x, In x (List.concat a) /\ Qcabs x = m) ->
  (forall y, In y (List.concat a) -> (Qcabs y <= m)%Qc) ->
  abs_max a = Ok m.
Proof.
  intros (x & Hx & Hxm) Hall.
  destruct (abs_max a) as [m' | e] eqn:E.
  - destruct (abs_max_spec a m' E) as ((x' & Hx' & Hxm') & Hall').
    f_equal. apply Qcle_antisym.
    + rewrite <- Hxm'. now apply Hall.
    + rewrite <- Hxm. now apply Hall'.
  - unfold abs_max in E. destruct (List.concat a); [contradiction |].
    discriminate.
Qed.

Lemma Qc_eqb_neq (x y : Qc) : x <> y -> Qc_eqb x y = false.
Proof.
  intros H. unfold Qc_eqb.
  destruct (Qeq_bool (this x) (this y)) eqn:E; [| reflexivity].
  apply Qeq_bool_iff in E. apply Qc_is_canon in E. contradiction.
Qed.

Lemma Qc_div_1 (x : Qc) : (x / 1)%Qc = x.
Proof.
  unfold Qcdiv.
  replace (/ 1)%Qc with 1%Qc by (apply Qc_is_canon; reflexivity).
  apply Qcmult_1_r.
Qed.

Lemma divide_by_one (a : audio) :
  map (map (fun x => (x / 1)%Qc)) a = a.
Proof.
  transitivity (map (fun row : list Qc => row) a); [| apply map_id].
  apply map_ext. intros row.
  transitivity (map (fun x : Qc => x) row); [| apply map_id].
  apply map_ext. intros x. apply Qc_div_1.
Qed.

Lemma Qcabs_div_pos (x m : Qc) :
  (0 < m)%Qc -> Qcabs (x / m) = (Qcabs x / m)%Qc.
Proof.
  intros Hm. unfold Qcdiv. rewrite Qcabs_Qcmult. f_equal.
  apply Qcabs_pos. now apply Qc_inv_nonneg.
Qed.

(** C9: when the peak m of a signal is not zero, peak normalisation returns
    a signal whose peak is 1, and normalising that signal again returns it
    unchanged. *)
Theorem peak_normalize_idempotent (a : audio) (m : Qc) :
  abs_max a = Ok m -> m <> 0%Qc ->
  exists a1,
    peak_normalize a = Ok a1
    /\ abs_max a1 = Ok 1%Qc
    /\ peak_normalize a1 = Ok a1.
Proof.
  intros Hmax Hm0.
  destruct (abs_max_spec a m Hmax) as ((x0 & Hx0 & Hx0m) & Hall).
  assert (Hpos : (0 < m)%Qc).
  { destruct (Qcle_lt_or_eq 0%Qc m) as [H | H];
      [rewrite <- Hx0m; apply Qcabs_nonneg | exact H | congruence]. }
  set (a1 := map (map (fun x => (x / m)%Qc)) a).
  assert (Hrun : peak_normalize a = Ok a1).
  { unfold peak_normalize. rewrite Hmax, bind_Ok.
    now rewrite (Qc_eqb_neq _ _ Hm0). }
  assert (Hconcat : List.concat a1
                    = map (fun x => (x / m)%Qc) (List.concat a)).
  { unfold a1. now rewrite concat_map. }
  assert (Hpeak : abs_max a1 = Ok 1%Qc).
  { apply abs_max_unique; rewrite Hconcat.
    - exists (x0 / m)%Qc.
      split; [apply in_map_iff; exists x0; now split |].
      rewrite (Qcabs_div_pos _ _ Hpos), Hx0m.
      unfold Qcdiv. now apply Qcmult_inv_r.
    - intros y Hy. apply in_map_iff in Hy. destruct Hy as (x & <- & Hx).
      rewrite (Qcabs_div_pos _ _ Hpos).
      rewrite <- (Qcmult_inv_r m Hm0). unfold Qcdiv.
      apply Qcmult_le_compat_r; [now apply Hall |].
      now apply Qc_inv_nonneg. }
  exists a1. split; [exact Hrun |]. split; [exact Hpeak |].
  unfold peak_normalize. rewrite Hpeak, bind_Ok.
  rewrite (Qc_eqb_neq 1%Qc 0%Qc Q_apart_0_1).
  now rewrite divide_by_one.
Qed.

Lemma peak_normalize_idempotent_witness :
  exists a1,
    peak_normalize stereo_peak_4 = Ok a1
    /\ abs_max a1 = Ok 1%Qc
    /\ peak_normalize a1 = Ok a1.
Proof.
  apply (peak_normalize_idempotent stereo_peak_4 (Qc_of_Z 4)).
  - unfold abs_max. cbn [List.concat stereo_peak_4 app].
    f_equal. apply Qc_is_canon. vm_compute. reflexivity.
  - intros H. apply (f_equal this) in H. vm_compute in H. discriminate.
Defined.

(** ** The silence window, in general *)

Lemma nth_error_zero_between {A : Type} (zero : A) (lo hi : Z) (row : list A) :
  forall i k,
    nth_error (zero_between zero lo hi i row) k
    = option_map
        (fun x => if (lo <=? i + Z.of_nat k) && (i + Z.of_nat k <? hi)
                  then zero else x)
        (nth_error row k).
Proof.
  induction row as [| x rest IH]; intros i [| k]; simpl nth_error;
    try reflexivity.
  - simpl. now rewrite Z.add_0_r.
  - cbn [zero_between nth_error]. rewrite IH. simpl option_map.
    replace (i + 1 + Z.of_nat k) with (i + Z.of_nat (S k)) by lia.
    reflexivity.
Qed.

(** For an offset and a window size that are not negative, [row[a:b] = 0]
    zeroes exactly the positions a <= k < b of the row. *)
Lemma nth_error_zero_slice {A : Type} (zero : A) (start stop : Z)
      (row : list A) (k : nat) :
  0 <= start -> 0 <= stop ->
  nth_error (zero_slice zero start stop row) k
  = option_map
      (fun x => if (start <=? Z.of_nat k) && (Z.of_nat k <? stop)
                then zero else x)
      (nth_error row k).
Proof.
  intros Hstart Hstop. unfold zero_slice.
  rewrite nth_error_zero_between.
  destruct (nth_error row k) as [x |] eqn:Hk; [| reflexivity].
  assert (Hlt : Z.of_nat k < len row).
  { unfold len. apply Nat2Z.inj_lt. apply nth_error_Some. congruence. }
  simpl. f_equal. unfold slice_bound.
  destruct (Z.ltb_spec start 0), (Z.ltb_spec stop 0); try lia.
  destruct (Z.leb_spec (Z.min start (len row)) (Z.of_nat k)),
    (Z.leb_spec start (Z.of_nat k)),
    (Z.ltb_spec (Z.of_nat k) (Z.min stop (len row))),
    (Z.ltb_spec (Z.of_nat k) stop);
    try reflexivity; lia.
Qed.

(** The target rows are zeroed on the very indices [start, start +
    zero_size) on which the audio rows are zeroed: the bounds are not
    divided by the downsample factor. *)
Lemma drop_contiguous_frames_same_bounds
      (self : BeatDataset.t) (start : Z) (a a' : audio) (tgt tgt' : target) :
  0 <= start -> 0 <= BeatDataset.length self ->
  drop_contiguous_frames self start a tgt = Ok (a', tgt') ->
  let stop := start + Z.quot (BeatDataset.length self) 10 in
  let window (k : nat) := (start <=? Z.of_nat k) && (Z.of_nat k <? stop) in
  (forall k, nth_error (beats tgt') k
             = option_map (fun x => if window k then 0 else x)
                          (nth_error (beats tgt) k))
  /\ (forall k, nth_error (downbeats tgt') k
                = option_map (fun x => if window k then 0 else x)
                             (nth_error (downbeats tgt) k))
  /\ (forall c row, nth_error a c = Some row ->
        exists row', nth_error a' c = Some row'
          /\ forall k, nth_error row' k
                       = option_map (fun x => if window k then 0%Qc else x)
                                    (nth_error row k)).
Proof.
  intros Hstart Hlen H stop window.
  unfold drop_contiguous_frames in H.
  destruct (audio_width a - Z.quot (BeatDataset.length self) 10 - 1 <=? 0);
    [discriminate |].
  injection H as <- <-.
  assert (Hstop : 0 <= stop).
  { unfold stop. pose proof (Z.quot_pos (BeatDataset.length self) 10). lia. }
  cbn [beats downbeats].
  split; [intros k; now apply nth_error_zero_slice |].
  split; [intros k; now apply nth_error_zero_slice |].
  intros c row Hrow. eexists. split.
  - rewrite nth_error_map, Hrow. reflexivity.
  - intros k. now apply nth_error_zero_slice.
Qed.

(** * Further properties of the embedded code *)

(** ** Interval Builder: shape of the intervals *)

Lemma nonzero_from_In {A : Type} (nz : A -> bool) (row : list A) :
  forall i k,
    In k (nonzero_from nz i row)
    <-> exists j x, nth_error row j = Some x /\ nz x = true
                    /\ k = i + Z.of_nat j.
Proof.
  induction row as [| y rest IH]; intros i k; simpl.
  - split; [contradiction |]. intros ([| j] & x & H & _); discriminate.
  - assert (Hrest : In k (nonzero_from nz (i + 1) rest)
                    <-> exists j x, nth_error (y :: rest) (S j) = Some x
                                    /\ nz x = true
                                    /\ k = i + Z.of_nat (S j)).
    { rewrite IH. split; intros (j & x & Hj & Hx & ->);
        exists j, x; repeat split; auto; lia. }
    destruct (nz y) eqn:Hy; simpl; rewrite ?Hrest; split.
    + intros [<- | (j & x & H)].
      * exists 0%nat, y. simpl. repeat split; auto. lia.
      * exists (S j), x. exact H.
    + intros ([| j] & x & Hj & Hx & ->).
      * left. simpl. lia.
      * right. exists j, x. auto.
    + intros (j & x & H). exists (S j), x. exact H.
    + intros ([| j] & x & Hj & Hx & ->).
      * simpl in Hj. injection Hj as <-. congruence.
      * exists j, x. auto.
Qed.

(** [nonzero] lists exactly the positions that hold an event. *)
Lemma nonzero_In (row : list Z) (k : Z) :
  In k (nonzero row)
  <-> 0 <= k < len row /\ active row (Z.to_nat k).
Proof.
  unfold nonzero, active. rewrite nonzero_from_In. split.
  - intros (j & x & Hj & Hx & ->).
    assert (Hlt : (j < List.length row)%nat)
      by (apply nth_error_Some; congruence).
    rewrite Z.add_0_l, Nat2Z.id, (nth_error_nth _ _ 0 Hj).
    unfold len. split; [lia |].
    destruct (Z.eqb_spec x 0); [discriminate | assumption].
  - intros [Hk Hact]. exists (Z.to_nat k), (nth (Z.to_nat k) row 0).
    split; [apply nth_error_nth'; unfold len in Hk; lia |].
    split; [| lia].
    destruct (Z.eqb_spec (nth (Z.to_nat k) row 0) 0);
      [contradiction | reflexivity].
Qed.

Lemma sorted_nth_lt (l : list Z) :
  StronglySorted Z.lt l ->
  forall i j, (i < j < List.length l)%nat -> nth i l 0 < nth j l 0.
Proof.
  induction 1 as [| x rest Hs IH Hall]; intros i j Hij; simpl in Hij;
    [lia |].
  destruct j as [| j]; [lia |]. destruct i as [| i]; simpl.
  - rewrite Forall_forall in Hall. apply Hall. apply nth_In. lia.
  - apply IH. lia.
Qed.

Lemma sorted_nth_lt_inv (l : list Z) :
  StronglySorted Z.lt l ->
  forall i j, (i < List.length l)%nat -> (j < List.length l)%nat ->
              nth i l 0 < nth j l 0 -> (i < j)%nat.
Proof.
  intros Hs i j Hi Hj Hlt.
  destruct (Nat.lt_trichotomy i j) as [H | [H | H]]; [exact H | |].
  - subst. lia.
  - pose proof (sorted_nth_lt l Hs j i). lia.
Qed.

Lemma In_make_interval_subset (samples : list Z) (cls : Z) (iv : interval) :
  In iv (make_interval_subset samples cls) ->
  exists i, (S i < List.length samples)%nat
            /\ iv = (nth i samples 0, nth (S i) samples 0, cls).
Proof.
  intros Hin. apply (In_nth _ _ sentinel_row) in Hin.
  destruct Hin as (i & Hi & <-).
  rewrite length_make_interval_subset in Hi.
  exists i. split; [lia |]. apply nth_make_interval_subset. exact Hi.
Qed.

(** Every interval of class [cls] built from [row] joins two events of
    that row that follow each other. *)
Lemma interval_of_row (row : list Z) (cls : Z) (s e c : Z) :
  In (s, e, c) (make_interval_subset (nonzero row) cls) ->
  c = cls /\ 0 <= s < e /\ e < len row
  /\ active row (Z.to_nat s) /\ active row (Z.to_nat e)
  /\ forall k, s < k < e -> ~ active row (Z.to_nat k).
Proof.
  intros Hin. apply In_make_interval_subset in Hin.
  destruct Hin as (i & Hi & [= -> -> ->]).
  pose proof (nonzero_from_sorted (fun x => negb (x =? 0)) row 0) as Hs.
  fold (nonzero row) in Hs.
  assert (Hsi : In (nth i (nonzero row) 0) (nonzero row))
    by (apply nth_In; lia).
  assert (Hei : In (nth (S i) (nonzero row) 0) (nonzero row))
    by (apply nth_In; lia).
  apply nonzero_In in Hsi. apply nonzero_In in Hei.
  pose proof (sorted_nth_lt _ Hs i (S i)) as Hlt.
  repeat split; try tauto; try lia.
  intros k Hk Hact.
  assert (Hin : In k (nonzero row)) by (apply nonzero_In; split; [lia | auto]).
  apply (In_nth _ _ 0) in Hin. destruct Hin as (j & Hj & Hnth).
  rewrite <- Hnth in Hk.
  assert (i < j)%nat by (apply (sorted_nth_lt_inv _ Hs); lia).
  assert (j < S i)%nat by (apply (sorted_nth_lt_inv _ Hs); lia).
  lia.
Qed.

(** X1: every interval (start, end, class) that the Interval Builder
    returns has class 0 or 1, satisfies 0 <= start < end < width, and its
    two ends are events of the row its class names (downbeats for 0, beats
    for 1) with no event of that row strictly between them. *)
Theorem make_intervals_well_formed (t : target) (s e c : Z) :
  In (s, e, c) (make_intervals t) ->
  let row := if c =? 0 then downbeats t else beats t in
  (c = 0 \/ c = 1)
  /\ 0 <= s < e /\ e < len row
  /\ active row (Z.to_nat s) /\ active row (Z.to_nat e)
  /\ forall k, s < k < e -> ~ active row (Z.to_nat k).
Proof.
  intros Hin.
  destruct (Z.lt_ge_cases (len (nonzero (downbeats t))) 2) as [Hd | Hd].
  { rewrite make_intervals_under_populated in Hin by (now left).
    contradiction. }
  destruct (Z.lt_ge_cases (len (nonzero (beats t))) 2) as [Hb | Hb].
  { rewrite make_intervals_under_populated in Hin by (now right).
    contradiction. }
  rewrite make_intervals_populated in Hin by assumption.
  apply in_app_or in Hin. destruct Hin as [Hin | Hin];
    apply interval_of_row in Hin; destruct Hin as (-> & H); simpl.
  - split; [now left | exact H].
  - split; [now right | exact H].
Qed.

Lemma make_intervals_well_formed_witness :
  0 <= 0 < 4 /\ active [1; 0; 0; 0; 1] 4.
Proof.
  destruct (make_intervals_well_formed
              (mkTarget [1; 0; 1; 0; 1] [1; 0; 0; 0; 1]) 0 4 0)
    as (_ & Hrange & _ & _ & Hend & _).
  - vm_compute. left. reflexivity.
  - split; [exact Hrange | exact Hend].
Defined.

(** ** Batch Collator: what is passed through, and the way back *)

Lemma third_elements_spec {M : Type} (data : list (sample M)) :
  forall ms, third_elements data = Ok ms ->
             map s_metadata data = map Some ms.
Proof.
  induction data as [| s rest IH]; intros ms H; simpl in H.
  - now injection H as <-.
  - destruct (s_metadata s) as [m |] eqn:Hm; [| discriminate].
    destruct (third_elements rest) as [ms' |]; simpl in H; [| discriminate].
    injection H as <-. simpl. rewrite Hm. f_equal. now apply IH.
Qed.

Lemma stack_spec (audios out : list audio) :
  stack audios = Ok out ->
  out = audios
  /\ exists a rest, audios = a :: rest
                    /\ Forall (fun b => same_shape a b = true) rest.
Proof.
  unfold stack. destruct audios as [| a rest]; [discriminate |].
  destruct (forallb (same_shape a) rest) eqn:E; [| discriminate].
  intros [= <-]. split; [reflexivity |]. exists a, rest.
  split; [reflexivity |]. apply Forall_forall. now apply forallb_forall.
Qed.

(** The steps a successful run of [collater] went through. *)
Lemma collater_inversion {M : Type} (data : list (sample M))
      (new_audios : list audio) (new_annots : list (list interval))
      (metadata : option (list M)) :
  collater data = Ok (new_audios, new_annots, metadata) ->
  exists first rest m,
    data = first :: rest
    /\ match s_metadata first with
       | Some _ => ms <- third_elements data ;; Ok (Some ms)
       | None => Ok None
       end = Ok metadata
    /\ stack (map s_audio data) = Ok new_audios
    /\ py_max (map len (map s_annot data)) = Ok m
    /\ new_annots
       = if m >? 0 then
           map (fun annot =>
                  if len annot >? 0
                  then assign_prefix annot
                                     (repeat sentinel_row (Z.to_nat m))
                  else repeat sentinel_row (Z.to_nat m))
               (map s_annot data)
         else map (fun _ => [sentinel_row]) (map s_annot data).
Proof.
  unfold collater. destruct data as [| first rest]; [discriminate |].
  set (data := first :: rest). intros H.
  destruct (match s_metadata first with
            | Some _ => ms <- third_elements data ;; Ok (Some ms)
            | None => Ok None
            end) as [md |] eqn:Hmd; [| discriminate].
  rewrite bind_Ok in H.
  destruct (stack (map s_audio data)) as [auds |] eqn:Hst; [| discriminate].
  rewrite bind_Ok in H.
  destruct (py_max (map len (map s_annot data))) as [m |] eqn:Hmax;
    [| discriminate].
  rewrite bind_Ok in H.
  exists first, rest, m. split; [reflexivity |].
  assert (E : (auds,
               (if m >? 0 then
                  map (fun annot =>
                         if len annot >? 0
                         then assign_prefix annot
                                (repeat sentinel_row (Z.to_nat m))
                         else repeat sentinel_row (Z.to_nat m))
                      (map s_annot data)
                else map (fun _ => [sentinel_row]) (map s_annot data)),
               md) = (new_audios, new_annots, metadata))
    by (apply (f_equal (fun r => match r with
                                 | Ok v => v
                                 | Raise _ => (new_audios, new_annots, metadata)
                                 end)) in H; exact H).
  injection E as <- <- <-. repeat split; assumption.
Qed.

(** X2: whenever the collator returns, the audio tensors come back in batch
    order and all have the shape of the first one, there is one annotation
    slice per example, and the metadata list is returned exactly when the
    first example carries metadata, holding every example's metadata in
    batch order. *)
Theorem collater_passes_through {M : Type} (data : list (sample M))
        (new_audios : list audio) (new_annots : list (list interval))
        (metadata : option (list M)) :
  collater data = Ok (new_audios, new_annots, metadata) ->
  new_audios = map s_audio data
  /\ List.length new_annots = List.length data
  /\ (exists first rest,
        data = first :: rest
        /\ Forall (fun s => same_shape (s_audio first) (s_audio s) = true) rest
        /\ match metadata with
           | None => s_metadata first = None
           | Some ms => s_metadata first <> None
                        /\ map s_metadata data = map Some ms
           end).
Proof.
  intros H. apply collater_inversion in H.
  destruct H as (first & rest & m & -> & Hmd & Hst & _ & ->).
  apply stack_spec in Hst.
  destruct Hst as (-> & a & others & Heq & Hshape).
  split; [reflexivity |].
  split; [destruct (m >? 0); now rewrite !length_map |].
  exists first, rest. split; [reflexivity |]. split.
  - simpl in Heq. injection Heq as <- <-.
    apply Forall_forall. intros s Hs. rewrite Forall_forall in Hshape.
    apply Hshape. now apply in_map.
  - destruct (s_metadata first) as [m0 |] eqn:Hfirst.
    + destruct (third_elements (first :: rest)) as [ms |] eqn:Hms;
        [| discriminate].
      rewrite bind_Ok in Hmd. injection Hmd as <-.
      split; [discriminate |]. now apply third_elements_spec.
    + now injection Hmd as <-.
Qed.

Lemma collater_passes_through_witness :
  List.length [ [sentinel_row; sentinel_row; sentinel_row];
                [(0, 4, 0); (0, 2, 1); (2, 4, 1)];
                [(5, 9, 1); sentinel_row; sentinel_row] ]
  = List.length batch_0_3_1.
Proof.
  destruct (collater_passes_through batch_0_3_1 (map s_audio batch_0_3_1)
              [ [sentinel_row; sentinel_row; sentinel_row];
                [(0, 4, 0); (0, 2, 1); (2, 4, 1)];
                [(5, 9, 1); sentinel_row; sentinel_row] ] None)
    as (_ & Hlen & _).
  - vm_compute. reflexivity.
  - exact Hlen.
Defined.

Lemma skipn_repeat {A : Type} (x : A) (n k : nat) :
  skipn k (repeat x n) = repeat x (n - k).
Proof.
  revert k. induction n as [| n IH]; intros [| k]; simpl; auto.
Qed.

Lemma filter_repeat_false {A : Type} (f : A -> bool) (x : A) (n : nat) :
  f x = false -> filter f (repeat x n) = [].
Proof.
  intros H. induction n as [| n IH]; simpl; [reflexivity |].
  now rewrite H.
Qed.

Lemma filter_all_true {A : Type} (f : A -> bool) (l : list A) :
  Forall (fun x => f x = true) l -> filter f l = l.
Proof.
  induction 1 as [| x l Hx _ IH]; simpl; [reflexivity |].
  now rewrite Hx, IH.
Qed.

(** Dropping the rows whose class is the sentinel -1. *)
Lemma drop_sentinels_padded (annot : list interval) (n : nat) :
  Forall (fun iv => class_id iv <> -1) annot ->
  filter (fun iv => negb (class_id iv =? -1))
         (annot ++ repeat sentinel_row n)
  = annot.
Proof.
  intros H. rewrite filter_app, filter_repeat_false by reflexivity.
  rewrite app_nil_r. apply filter_all_true.
  eapply Forall_impl; [| exact H]. simpl. intros iv Hiv.
  destruct (Z.eqb_spec (class_id iv) (-1)); [contradiction | reflexivity].
Qed.

(** X3: the padding can be undone: when no interval of the batch has class
    -1 (the Interval Builder only produces classes 0 and 1), removing from
    each slice of the returned annotation tensor the rows whose class is
    -1 gives back every example's own intervals, in order. *)
Theorem collater_round_trip {M : Type} (data : list (sample M))
        (new_audios : list audio) (new_annots : list (list interval))
        (metadata : option (list M)) :
  collater data = Ok (new_audios, new_annots, metadata) ->
  Forall (fun s => Forall (fun iv => class_id iv <> -1) (s_annot s)) data ->
  map (filter (fun iv => negb (class_id iv =? -1))) new_annots
  = map s_annot data.
Proof.
  intros H Hclass. apply collater_inversion in H.
  destruct H as (first & rest & m & Hdata & _ & _ & Hmax & ->).
  apply py_max_spec in Hmax. destruct Hmax as [_ Hall].
  rewrite map_map in Hall. rewrite Forall_map in Hall.
  assert (Hgoal : forall s, In s data ->
            filter (fun iv => negb (class_id iv =? -1))
                   (if m >? 0 then
                      if len (s_annot s) >? 0
                      then assign_prefix (s_annot s)
                             (repeat sentinel_row (Z.to_nat m))
                      else repeat sentinel_row (Z.to_nat m)
                    else [sentinel_row])
            = s_annot s).
  { intros s Hs. rewrite Forall_forall in Hclass, Hall.
    specialize (Hclass s Hs). specialize (Hall s Hs). simpl in Hall.
    destruct (Z.gtb_spec m 0) as [Hpos | Hzero].
    - replace (if len (s_annot s) >? 0
               then assign_prefix (s_annot s)
                                  (repeat sentinel_row (Z.to_nat m))
               else repeat sentinel_row (Z.to_nat m))
        with (s_annot s
                ++ repeat sentinel_row
                     (Z.to_nat m - List.length (s_annot s))).
      + now apply drop_sentinels_padded.
      + unfold assign_prefix. rewrite skipn_repeat.
        destruct (Z.gtb_spec (len (s_annot s)) 0) as [_ | Hz];
          [reflexivity |].
        destruct (s_annot s) as [| iv ivs]; simpl.
        * now rewrite Nat.sub_0_r.
        * unfold len in Hz. simpl in Hz. lia.
    - assert (Hnil : s_annot s = []).
      { destruct (s_annot s); [reflexivity |].
        unfold len in Hall. simpl in Hall. lia. }
      rewrite Hnil. reflexivity. }
  destruct (m >? 0); rewrite !map_map; apply map_ext_in; exact Hgoal.
Qed.

Lemma collater_round_trip_witness :
  map (filter (fun iv => negb (class_id iv =? -1)))
      [ [sentinel_row; sentinel_row; sentinel_row];
        [(0, 4, 0); (0, 2, 1); (2, 4, 1)];
        [(5, 9, 1); sentinel_row; sentinel_row] ]
  = map s_annot batch_0_3_1.
Proof.
  apply (collater_round_trip batch_0_3_1 (map s_audio batch_0_3_1) _ None).
  - vm_compute. reflexivity.
  - repeat constructor; intros H; vm_compute in H; discriminate.
Defined.

(** ** Example Sampler: length normalisation *)

Lemma len_app {A : Type} (l1 l2 : list A) : len (l1 ++ l2) = len l1 + len l2.
Proof. unfold len. rewrite length_app. lia. Qed.

























(** *** Events under padding *)









(** ** Example Sampler: the subsets *)

Lemma py_slice_closed {A : Type} (lo hi : Z) (l : list A) :
  0 <= lo <= hi -> hi <= len l ->
  py_slice lo (Some hi) l
  = firstn (Z.to_nat hi - Z.to_nat lo) (skipn (Z.to_nat lo) l).
Proof.
  intros H Hn. unfold py_slice, slice_bound.
  destruct (Z.ltb_spec lo 0), (Z.ltb_spec hi 0); try lia.
  rewrite !Z.min_l by lia. f_equal. lia.
Qed.

Lemma py_slice_open {A : Type} (lo : Z) (l : list A) :
  0 <= lo <= len l -> py_slice lo None l = skipn (Z.to_nat lo) l.
Proof.
  intros H. unfold py_slice, slice_bound.
  destruct (Z.ltb_spec lo 0); try lia.
  rewrite Z.min_l by lia.
  apply firstn_all2. rewrite length_skipn. unfold len in *. lia.
Qed.

Lemma three_way_split {A : Type} (a b : nat) (l : list A) :
  (a <= b)%nat ->
  firstn (a - 0) (skipn 0 l) ++ firstn (b - a) (skipn a l) ++ skipn b l = l.
Proof.
  intros H. rewrite Nat.sub_0_r. simpl skipn at 1.
  replace (skipn b l) with (skipn (b - a) (skipn a l))
    by (rewrite skipn_skipn; f_equal; lia).
  rewrite (firstn_skipn (b - a) (skipn a l)).
  apply firstn_skipn.
Qed.

(** X8: applied to one shuffled file list, the subsets "train", "val" and
    "test" are consecutive slices that together give the list back, so
    they share no position and miss none; their sizes are the truncated
    4n/5, 9n/10 - 4n/5 and n - 9n/10; "full-train" and "full-val" select
    the whole list. *)
Theorem subsets_partition_the_files (shuffled : list string) :
  exists train val test,
    select_files "train" false shuffled = Selected train
    /\ select_files "val" false shuffled = Selected val
    /\ select_files "test" false shuffled = Selected test
    /\ train ++ val ++ test = shuffled
    /\ len train = len shuffled * 4 / 5
    /\ len (train ++ val) = len shuffled * 9 / 10
    /\ select_files "full-train" false shuffled = Selected shuffled
    /\ select_files "full-val" false shuffled = Selected shuffled.
Proof.
  pose proof (len_nonneg shuffled) as Hn.
  set (n := len shuffled) in *.
  assert (Ha : Z.quot (n * 4) 5 = n * 4 / 5)
    by (apply Z.quot_div_nonneg; lia).
  assert (Hb : Z.quot (n * 9) 10 = n * 9 / 10)
    by (apply Z.quot_div_nonneg; lia).
  assert (Hab : 0 <= n * 4 / 5 <= n * 9 / 10 /\ n * 9 / 10 <= n).
  { pose proof (Z.div_mod (n * 4) 5 ltac:(lia)).
    pose proof (Z.mod_pos_bound (n * 4) 5 ltac:(lia)).
    pose proof (Z.div_mod (n * 9) 10 ltac:(lia)).
    pose proof (Z.mod_pos_bound (n * 9) 10 ltac:(lia)). lia. }
  unfold select_files, split_bounds. simpl String.eqb. cbv iota.
  simpl existsb. cbv iota. fold n. rewrite Ha, Hb.
  rewrite !py_slice_closed by (fold n; lia).
  rewrite !py_slice_open by (fold n; lia).
  do 3 eexists. split; [reflexivity |]. split; [reflexivity |].
  split; [reflexivity |].
  split; [apply three_way_split; lia |].
  split.
  { unfold len. rewrite length_firstn, length_skipn. simpl skipn.
    unfold n, len in *. lia. }
  split.
  { rewrite len_app. unfold len.
    rewrite !length_firstn, !length_skipn. simpl skipn.
    unfold n, len in *. lia. }
  split; reflexivity.
Qed.

(** ** Annotation Parser: empty files, failing lines, data sets without
    downbeats *)

(** X9: an annotation file without lines makes [load_annot] raise
    ValueError, for every data set; whenever [load_annot] returns, the file
    had at least one line and there is at least one beat position and one
    ordinal. *)
Theorem load_annot_needs_a_line (self : BeatDataset.t) :
  load_annot self [] = Raise ValueError
  /\ forall lines beat_samples downbeat_samples beat_indices time_signature,
      load_annot self lines
      = Ok (beat_samples, downbeat_samples, beat_indices, time_signature) ->
      lines <> [] /\ beat_samples <> [] /\ beat_indices <> [].
Proof.
  split; [reflexivity |].
  intros lines bs ds bi ts H. unfold load_annot in H.
  destruct (load_annot_loop self ([], [], []) lines) as [[[bs' ds'] bi'] |]
    eqn:Hloop; simpl in H; [| discriminate].
  destruct (np_max bi') as [m |] eqn:Hmax; simpl in H; [| discriminate].
  injection H as <- <- <- _.
  assert (Hinit : annot_invariant ([], [], [])) by (split; reflexivity).
  destruct (load_annot_loop_invariant self lines _ _ Hinit Hloop)
    as [[Hlen _] Hcount].
  simpl in Hcount.
  assert (Hbi : bi' <> []) by (intros ->; discriminate).
  assert (Hbs : bs' <> [])
    by (intros ->; destruct bi'; [congruence | discriminate]).
  repeat split; auto.
  intros ->. destruct bs'; [congruence | discriminate].
Qed.




Lemma length_split_on (sep : ascii) (l : list ascii) :
  List.length (split_on sep l)
  = S (List.length (filter (Ascii.eqb sep) l)).
Proof.
  induction l as [| x rest IH]; simpl; [reflexivity |].
  rewrite (Ascii.eqb_sym sep x).
  destruct (Ascii.eqb x sep); simpl; [now rewrite IH |].
  destruct (split_on sep rest) as [| field fields]; simpl in *; lia.
Qed.

(** X11: a ballroom line must hold exactly one separator: if, after the
    newlines are stripped and tabs are replaced by spaces, the number of
    spaces in the line is not one (no separator, a doubled or a trailing
    space), the unpacking of [line.split(' ')] raises ValueError. *)
Theorem ballroom_line_needs_one_separator (line : string) :
  List.length
    (filter (Ascii.eqb space)
            (replace_char tab space
               (strip_char newline (list_ascii_of_string line))))
  <> 1%nat ->
  parse_line ballroom line = Raise ValueError.
Proof.
  intros Hcount. unfold parse_line.
  set (body := replace_char tab space
                 (strip_char newline (list_ascii_of_string line))) in *.
  pose proof (length_split_on space body) as Hlen.
  destruct (split_on space body) as [| f1 [| f2 [| f3 rest]]];
    simpl in Hlen; try reflexivity.
  lia.
Qed.

Lemma ballroom_line_needs_one_separator_witness :
  parse_line ballroom "0.5 1 " = Raise ValueError.
Proof.
  apply ballroom_line_needs_one_separator. vm_compute. discriminate.
Defined.

Lemma load_annot_needs_a_line_witness :
  ballroom_lines <> []
  /\ [22050; 66150; 110250; 154350; 198450] <> []
  /\ [1; 2; 3; 4; 1] <> [].
Proof.
  apply (proj2 (load_annot_needs_a_line (ballroom_44100 "train"))
               ballroom_lines [22050; 66150; 110250; 154350; 198450]
               [22050; 198450] [1; 2; 3; 4; 1] "4/4"%string).
  vm_compute. reflexivity.
Defined.

Lemma smc_step (self : BeatDataset.t) (st st' : annot_state) (line : string) :
  dataset self = smc ->
  load_annot_step self st line = Ok st' ->
  snd (fst st) = fst (fst st) /\ Forall (fun o => o = 1) (snd st) ->
  snd (fst st') = fst (fst st') /\ Forall (fun o => o = 1) (snd st').
Proof.
  intros Hsmc. destruct st as [[bs ds] bi]. unfold load_annot_step.
  rewrite Hsmc. unfold parse_line.
  destruct (py_float (strip_char newline (list_ascii_of_string line)))
    as [time_sec |]; [| discriminate].
  rewrite !bind_Ok.
  destruct (float_of_Qc (audio_sample_rate self)) as [sr |];
    [| discriminate].
  rewrite bind_Ok.
  destruct (fmul time_sec sr) as [product |]; [| discriminate].
  rewrite bind_Ok. simpl. intros [= <-] [Hds Hbi]. simpl in *.
  split; [now rewrite Hds |].
  apply Forall_app. split; [exact Hbi | repeat constructor].
Qed.

Lemma smc_loop (self : BeatDataset.t) (lines : list string) :
  dataset self = smc ->
  forall st st',
    load_annot_loop self st lines = Ok st' ->
    snd (fst st) = fst (fst st) /\ Forall (fun o => o = 1) (snd st) ->
    snd (fst st') = fst (fst st') /\ Forall (fun o => o = 1) (snd st').
Proof.
  intros Hsmc. induction lines as [| line rest IH]; intros st st' H Hinv;
    simpl in H.
  - now injection H as <-.
  - destruct (load_annot_step self st line) as [st1 |] eqn:Hstep;
      [| discriminate].
    rewrite bind_Ok in H.
    apply (IH _ _ H). now apply (smc_step self st st1 line).
Qed.

Lemma fold_left_max_all_ones (l : list Z) :
  Forall (fun o => o = 1) l -> fold_left Z.max l 1 = 1.
Proof.
  induction 1 as [| x rest -> _ IH]; simpl; [reflexivity | exact IH].
Qed.

(** X12: for the data set "smc" every line is given the ordinal 1, so
    every beat is also recorded as a downbeat: whenever [load_annot]
    returns, the downbeat positions equal the beat positions, all
    ordinals are 1 and the time signature is "?". *)
Theorem smc_beats_are_all_downbeats
        (self : BeatDataset.t) (lines : list string)
        (beat_samples downbeat_samples beat_indices : list Z)
        (time_signature : string) :
  dataset self = smc ->
  load_annot self lines
  = Ok (beat_samples, downbeat_samples, beat_indices, time_signature) ->
  downbeat_samples = beat_samples
  /\ Forall (fun o => o = 1) beat_indices
  /\ time_signature = "?"%string.
Proof.
  intros Hsmc H. unfold load_annot in H.
  destruct (load_annot_loop self ([], [], []) lines) as [[[bs ds] bi] |]
    eqn:Hloop; [| discriminate].
  rewrite bind_Ok in H.
  destruct (smc_loop self lines Hsmc _ _ Hloop) as [Hds Hbi];
    [split; [reflexivity | constructor] |].
  simpl in Hds, Hbi.
  destruct bi as [| o rest]; [discriminate |].
  simpl in H. injection H as <- <- <- <-.
  split; [exact Hds |]. split; [exact Hbi |].
  inversion Hbi as [| ? ? -> Hrest]; subst.
  now rewrite (fold_left_max_all_ones rest Hrest).
Qed.

Lemma smc_beats_are_all_downbeats_witness :
  [22050; 55125; 88200] = [22050; 55125; 88200]
  /\ Forall (fun o => o = 1) [1; 1; 1]
  /\ "?"%string = "?"%string.
Proof.
  apply (smc_beats_are_all_downbeats smc_44100 smc_lines).
  - reflexivity.
  - vm_compute. reflexivity.
Defined.

(** ** Target Renderer after the Annotation Parser *)

(** A row rendered from zeros has an event exactly where an index was
    written. *)
Lemma index_put_zeros_active (n : Z) (idx row : list Z) :
  0 <= n -> index_put (zeros n) idx 1 = Ok row ->
  forall k, active row k
            <-> exists j, In j idx /\ norm_index n j = Ok (Z.of_nat k).
Proof.
  intros Hn Hrow k. unfold active. split.
  - intros Hact.
    destruct (index_put_cases 1 0 _ _ _ k Hrow) as [Hsame | (j & Hin & Hj)].
    + rewrite Hsame, nth_zeros in Hact. congruence.
    + rewrite len_zeros in Hj by exact Hn. eauto.
  - intros (j & Hin & Hj).
    rewrite <- (Nat2Z.id k).
    rewrite (index_put_written 1 0 idx (zeros n) row j (Z.of_nat k));
      [discriminate | exact Hrow | exact Hin |].
    now rewrite len_zeros.
Qed.

Lemma ordinal_one_positions_incl (ps os : list Z) (p : Z) :
  In p (ordinal_one_positions ps os) -> In p ps.
Proof.
  unfold ordinal_one_positions. intros H.
  apply in_map_iff in H. destruct H as ([p' o] & <- & H).
  apply filter_In in H. destruct H as [H _].
  now apply in_combine_l in H.
Qed.

(** X13: the parser and the renderer together establish the invariant
    "every downbeat is a beat": when [load_annot] returns and
    [render_target] renders its beat and downbeat positions, every event
    of the downbeat row is an event of the beat row. *)
Theorem rendered_downbeats_are_beats
        (self : BeatDataset.t) (lines : list string) (n_audio : Z)
        (beat_samples downbeat_samples beat_indices : list Z)
        (time_signature : string) (tgt : target) :
  load_annot self lines
  = Ok (beat_samples, downbeat_samples, beat_indices, time_signature) ->
  render_target self n_audio beat_samples downbeat_samples = Ok tgt ->
  forall k, active (downbeats tgt) k -> active (beats tgt) k.
Proof.
  intros Hload Hrender.
  assert (Hincl : forall p, In p downbeat_samples -> In p beat_samples).
  { unfold load_annot in Hload.
    destruct (load_annot_loop self ([], [], []) lines) as [[[bs ds] bi] |]
      eqn:Hloop; [| discriminate].
    rewrite bind_Ok in Hload.
    destruct (np_max bi) as [m |]; [| discriminate].
    rewrite bind_Ok in Hload. injection Hload as <- <- _ _.
    assert (Hinit : annot_invariant ([], [], [])) by (split; reflexivity).
    destruct (load_annot_loop_invariant self lines _ _ Hinit Hloop)
      as [[_ Hds] _].
    intros p Hp. rewrite Hds in Hp.
    now apply ordinal_one_positions_incl in Hp. }
  unfold render_target in Hrender.
  apply bind_inv in Hrender as (tsr & _ & Hrender).
  destruct (Qc_eqb (audio_sample_rate self) 0%Qc); [discriminate |].
  apply bind_inv in Hrender as (beat_sec & Hbsec & Hrender).
  apply bind_inv in Hrender as (downbeat_sec & Hdsec & Hrender).
  apply bind_inv in Hrender as (t_sec & _ & Hrender).
  apply bind_inv in Hrender as (product & _ & Hrender).
  cbv zeta in Hrender.
  set (N := float_trunc product + 1) in Hrender.
  destruct (Z.ltb_spec N 0) as [Hneg | Hnn]; [discriminate |].
  apply bind_inv in Hrender as (beat_scaled & Hbsc & Hrender).
  apply bind_inv in Hrender as (downbeat_scaled & Hdsc & Hrender).
  apply bind_inv in Hrender as (bound & _ & Hrender).
  apply bind_inv in Hrender as (row0 & H0 & Hrender).
  apply bind_inv in Hrender as (row1 & H1 & Hrender).
  injection Hrender as <-. intros k. cbn [beats downbeats].
  rewrite (index_put_zeros_active N _ _ Hnn H0).
  rewrite (index_put_zeros_active N _ _ Hnn H1).
  intros (j & Hin & Hj). exists j. split; [| exact Hj].
  apply in_map_iff in Hin.
  destruct Hin as (x & <- & Hx). apply in_map. apply filter_In in Hx.
  destruct Hx as [Hx Hlt]. apply filter_In. split; [| exact Hlt].
  apply (map_result_Ok _ _ _ Hdsc) in Hx as (sec & Hsec & Hmul).
  apply (map_result_Ok _ _ _ Hdsec) in Hsec as (p & Hp & Hsec).
  apply (map_result_Ok _ _ _ Hbsc). exists sec. split; [| exact Hmul].
  apply (map_result_Ok _ _ _ Hbsec). exists p.
  split; [now apply Hincl | exact Hsec].
Qed.

Lemma rendered_downbeats_are_beats_witness :
  active [0; 1; 0; 1; 0; 1; 0; 1; 0; 1; 0; 0] 9.
Proof.
  apply (rendered_downbeats_are_beats
           (BeatDataset.mk (Qc_of_Z 44100) (Qc_of_Z 22050) ballroom "train"
                           16384 1000 ["a.wav"]%string "constant")
           ballroom_lines 242550
           [22050; 66150; 110250; 154350; 198450] [22050; 198450]
           [1; 2; 3; 4; 1] "4/4"%string
           (mkTarget [0; 1; 0; 1; 0; 1; 0; 1; 0; 1; 0; 0]
                     [0; 1; 0; 0; 0; 0; 0; 0; 0; 1; 0; 0])).
  - vm_compute. reflexivity.
  - vm_compute. reflexivity.
  - vm_compute. discriminate.
Defined.

(** ** Augmentations: what the silence and the jitter do to the events *)

Lemma nth_from_nth_error {A : Type} (l : list A) (k : nat) (d : A) :
  nth k l d = match nth_error l k with Some x => x | None => d end.
Proof.
  revert k. induction l as [| x rest IH]; intros [| k]; simpl; auto.
Qed.

Lemma nth_zero_slice (start stop : Z) (row : list Z) (k : nat) :
  0 <= start -> 0 <= stop ->
  nth k (zero_slice 0 start stop row) 0
  = if (start <=? Z.of_nat k) && (Z.of_nat k <? stop) then 0
    else nth k row 0.
Proof.
  intros Hs He. rewrite !nth_from_nth_error.
  rewrite nth_error_zero_slice by assumption.
  destruct (nth_error row k); simpl; [reflexivity |].
  now destruct ((start <=? Z.of_nat k) && (Z.of_nat k <? stop)).
Qed.

Lemma length_zero_between {A : Type} (zero : A) (lo hi : Z) (row : list A) :
  forall i, List.length (zero_between zero lo hi i row) = List.length row.
Proof.
  induction row as [| x rest IH]; intros i; simpl; [| rewrite IH];
    reflexivity.
Qed.

Lemma len_zero_slice {A : Type} (zero : A) (start stop : Z) (row : list A) :
  len (zero_slice zero start stop row) = len row.
Proof. unfold zero_slice, len. now rewrite length_zero_between. Qed.

Lemma active_zero_slice (start stop : Z) (row : list Z) (k : nat) :
  0 <= start -> 0 <= stop ->
  active (zero_slice 0 start stop row) k
  <-> active row k /\ ~ (start <= Z.of_nat k < stop).
Proof.
  intros Hs He. unfold active. rewrite nth_zero_slice by assumption.
  destruct (Z.leb_spec start (Z.of_nat k)), (Z.ltb_spec (Z.of_nat k) stop);
    simpl; split; try tauto; try lia; intros [H1 H2]; try tauto; lia.
Qed.

(** X14: when the silence step fires with an offset and a window length
    that are not negative, it keeps every shape, adds no event and removes
    exactly the events whose index lies in [start, start + zero_size); so
    a target in which every downbeat is a beat stays one. *)
Theorem silence_only_removes_events
        (self : BeatDataset.t) (start : Z) (a a' : audio)
        (tgt tgt' : target) :
  0 <= start -> 0 <= length self ->
  drop_contiguous_frames self start a tgt = Ok (a', tgt') ->
  let stop := start + Z.quot (length self) 10 in
  map len a' = map len a
  /\ len (beats tgt') = len (beats tgt)
  /\ len (downbeats tgt') = len (downbeats tgt)
  /\ (forall k, active (beats tgt') k
                <-> active (beats tgt) k /\ ~ (start <= Z.of_nat k < stop))
  /\ (forall k, active (downbeats tgt') k
                <-> active (downbeats tgt) k
                    /\ ~ (start <= Z.of_nat k < stop))
  /\ ((forall k, active (downbeats tgt) k -> active (beats tgt) k) ->
      forall k, active (downbeats tgt') k -> active (beats tgt') k).
Proof.
  intros Hstart Hlen H stop.
  unfold drop_contiguous_frames in H.
  destruct (audio_width a - Z.quot (length self) 10 - 1 <=? 0);
    [discriminate |].
  injection H as <- <-.
  assert (Hstop : 0 <= stop).
  { unfold stop. pose proof (Z.quot_pos (length self) 10). lia. }
  cbn [beats downbeats].
  split.
  { rewrite map_map. apply map_ext. intros row. apply len_zero_slice. }
  split; [apply len_zero_slice |]. split; [apply len_zero_slice |].
  split; [intros k; now apply active_zero_slice |].
  split; [intros k; now apply active_zero_slice |].
  intros Hinv k. rewrite !active_zero_slice by assumption.
  intros [Hd Hout]. split; [now apply Hinv | exact Hout].
Qed.

Lemma silence_only_removes_events_witness :
  len [1; 1; 1; 1; 1; 1; 1; 1; 0; 0; 0] = len (beats ones_target_11).
Proof.
  destruct (silence_only_removes_events window_40_factor_4 8
              ones_audio_40
              [repeat (Qc_of_Z 1) 8 ++ repeat 0%Qc 4 ++ repeat (Qc_of_Z 1) 28]
              ones_target_11
              (mkTarget [1; 1; 1; 1; 1; 1; 1; 1; 0; 0; 0]
                        [1; 1; 1; 1; 1; 1; 1; 1; 0; 0; 0]))
    as (_ & Hb & _).
  - lia.
  - vm_compute. discriminate.
  - vm_compute. reflexivity.
  - exact Hb.
Defined.

Lemma norm_index_Ok_range (n i j : Z) :
  norm_index n i = Ok j -> - n <= i < n.
Proof.
  unfold norm_index.
  destruct (Z.ltb_spec i (- n)), (Z.leb_spec n i); simpl;
    try discriminate. lia.
Qed.

Lemma norm_index_mod (n i : Z) :
  - n <= i < n -> norm_index n i = Ok (i mod n).
Proof.
  intros H. unfold norm_index.
  destruct (Z.ltb_spec i (- n)), (Z.leb_spec n i); simpl; try lia.
  f_equal. destruct (Z.ltb_spec i 0).
  - rewrite <- (Z.mod_small (i + n) n) by lia.
    replace (i + n) with (i + 1 * n) by lia. apply Z.mod_add. lia.
  - symmetry. apply Z.mod_small. lia.
Qed.

Lemma index_put_indices_accepted (v : Z) (idx : list Z) :
  forall row row',
    index_put row idx v = Ok row' ->
    Forall (fun j => - len row <= j < len row) idx.
Proof.
  induction idx as [| i rest IH]; intros row row' H; simpl in H;
    [constructor |].
  destruct (norm_index (len row) i) as [j |] eqn:Hj; [| discriminate].
  rewrite bind_Ok in H. constructor.
  - now apply norm_index_Ok_range in Hj.
  - apply IH in H. now rewrite len_list_set in H.
Qed.

Lemma nth_error_map2 {A B C : Type} (f : A -> B -> C)
      (l1 : list A) (l2 : list B) :
  forall i,
    nth_error (map2 f l1 l2) i
    = match nth_error l1 i, nth_error l2 i with
      | Some a, Some b => Some (f a b)
      | _, _ => None
      end.
Proof.
  revert l2. induction l1 as [| a l1 IH]; intros [| b l2] [| i]; simpl;
    try reflexivity.
  - now destruct (nth_error l1 i).
  - apply IH.
Qed.

Lemma nonzero_mask_In (mask : list bool) (j : Z) :
  In j (nonzero_mask mask)
  <-> exists i, nth_error mask i = Some true /\ j = Z.of_nat i.
Proof.
  unfold nonzero_mask. rewrite nonzero_from_In. split.
  - intros (i & x & Hi & -> & ->). exists i. split; [exact Hi | lia].
  - intros (i & Hi & ->). exists i, true. repeat split; auto.
Qed.

(** The indices [(row == 1).nonzero()]. *)
Lemma ones_In (row : list Z) (j : Z) :
  In j (nonzero_mask (map (fun x => x =? 1) row))
  <-> exists i, nth_error row i = Some 1 /\ j = Z.of_nat i.
Proof.
  rewrite nonzero_mask_In. split; intros (i & Hi & ->); exists i;
    (split; [| reflexivity]).
  - rewrite nth_error_map in Hi.
    destruct (nth_error row i) as [x |]; [| discriminate].
    simpl in Hi. injection Hi as Hx. apply Z.eqb_eq in Hx. now subst.
  - rewrite nth_error_map, Hi. reflexivity.
Qed.

(** The indices of the beats that are not downbeats. *)
Lemma other_beats_In (row0 row1 : list Z) (j : Z) :
  In j (nonzero_mask (map2 andb (map (fun x => x =? 1) row0)
                                (map (fun x => negb (x =? 1)) row1)))
  <-> exists i y, nth_error row0 i = Some 1 /\ nth_error row1 i = Some y
                  /\ y <> 1 /\ j = Z.of_nat i.
Proof.
  rewrite nonzero_mask_In. split.
  - intros (i & Hi & ->). rewrite nth_error_map2, !nth_error_map in Hi.
    destruct (nth_error row0 i) as [x |] eqn:E0; [| discriminate].
    destruct (nth_error row1 i) as [y |] eqn:E1; [| discriminate].
    simpl in Hi. injection Hi as Hxy. apply andb_true_iff in Hxy.
    destruct Hxy as [Hx Hy]. apply Z.eqb_eq in Hx. subst x.
    exists i, y. repeat split; auto.
    destruct (Z.eqb_spec y 1); [discriminate | assumption].
  - intros (i & y & H0 & H1 & Hy & ->). exists i. split; [| reflexivity].
    rewrite nth_error_map2, !nth_error_map, H0, H1. simpl.
    destruct (Z.eqb_spec y 1); [contradiction | reflexivity].
Qed.

Lemma shifted_In (n shift : Z) (idx : list Z) (j : Z) :
  In j (filter (fun i => i <? n) (map (fun i => i + shift) idx))
  <-> exists i, In i idx /\ i + shift < n /\ j = i + shift.
Proof.
  rewrite filter_In, in_map_iff, Z.ltb_lt. split.
  - intros [(i & <- & Hi) Hlt]. eauto.
  - intros (i & Hi & Hlt & ->). eauto.
Qed.

(** X15: where the jitter puts the events.  Whenever it returns, both
    rows keep the width n of the target; a downbeat at index i lands at
    (i + dbeat_shift) mod n, wrapping round from the start to the end when
    the sum is negative, and is dropped when the sum is n or more; the
    beat row holds these downbeats and, moved by beat_shift in the same
    way, the beats that were not downbeats; nothing else is an event. *)
Theorem shift_targets_moves_events
        (dbeat_shift beat_shift : Z) (tgt out : target) :
  shift_targets dbeat_shift beat_shift tgt = Ok out ->
  let n := target_width tgt in
  let moved_downbeat (k : nat) :=
    exists i, nth_error (downbeats tgt) i = Some 1
              /\ Z.of_nat i + dbeat_shift < n
              /\ Z.of_nat k = (Z.of_nat i + dbeat_shift) mod n in
  let moved_other_beat (k : nat) :=
    exists i y, nth_error (beats tgt) i = Some 1
                /\ nth_error (downbeats tgt) i = Some y /\ y <> 1
                /\ Z.of_nat i + beat_shift < n
                /\ Z.of_nat k = (Z.of_nat i + beat_shift) mod n in
  len (beats out) = n /\ len (downbeats out) = n
  /\ (forall k, active (downbeats out) k <-> moved_downbeat k)
  /\ (forall k, active (beats out) k
                <-> moved_other_beat k \/ moved_downbeat k).
Proof.
  intros H. cbv zeta. set (n := target_width tgt).
  assert (Hn : 0 <= n) by apply len_nonneg.
  unfold shift_targets in H. fold n in H.
  set (beat_ind := filter _ (map (fun i => i + beat_shift) _)) in H.
  set (dbeat_ind := filter _ (map (fun i => i + dbeat_shift) _)) in H.
  destruct (index_put (zeros n) beat_ind 1) as [r0 |] eqn:Hr0;
    [| discriminate].
  rewrite bind_Ok in H.
  destruct (index_put r0 dbeat_ind 1) as [r0' |] eqn:Hr0'; [| discriminate].
  rewrite bind_Ok in H.
  destruct (index_put (zeros n) dbeat_ind 1) as [r1 |] eqn:Hr1;
    [| discriminate].
  rewrite bind_Ok in H. injection H as <-. cbn [beats downbeats].
  pose proof (index_put_length _ _ _ _ Hr0) as Hl0.
  pose proof (index_put_length _ _ _ _ Hr0') as Hl0'.
  pose proof (index_put_length _ _ _ _ Hr1) as Hl1.
  rewrite len_zeros in Hl0, Hl1 by exact Hn. rewrite Hl0 in Hl0'.
  pose proof (index_put_indices_accepted _ _ _ _ Hr0) as Hacc0.
  pose proof (index_put_indices_accepted _ _ _ _ Hr1) as Hacc1.
  rewrite len_zeros in Hacc0, Hacc1 by exact Hn.
  rewrite Forall_forall in Hacc0, Hacc1.
  assert (Hd : forall k,
             (exists j, In j dbeat_ind /\ norm_index n j = Ok (Z.of_nat k))
             <-> exists i, nth_error (downbeats tgt) i = Some 1
                           /\ Z.of_nat i + dbeat_shift < n
                           /\ Z.of_nat k = (Z.of_nat i + dbeat_shift) mod n).
  { intros k. split.
    - intros (j & Hin & Hj). pose proof (Hacc1 j Hin) as Hr.
      rewrite (norm_index_mod n j Hr) in Hj. injection Hj as Hk.
      apply shifted_In in Hin. destruct Hin as (i0 & Hi0 & Hlt & ->).
      apply ones_In in Hi0. destruct Hi0 as (i & Hi & ->).
      exists i. repeat split; auto.
    - intros (i & Hi & Hlt & Hk). exists (Z.of_nat i + dbeat_shift).
      assert (Hin : In (Z.of_nat i + dbeat_shift) dbeat_ind).
      { apply shifted_In. exists (Z.of_nat i). repeat split; auto.
        apply ones_In. eauto. }
      split; [exact Hin |].
      rewrite (norm_index_mod n _ (Hacc1 _ Hin)). now rewrite Hk. }
  assert (Hb : forall k,
             (exists j, In j beat_ind /\ norm_index n j = Ok (Z.of_nat k))
             <-> exists i y, nth_error (beats tgt) i = Some 1
                             /\ nth_error (downbeats tgt) i = Some y
                             /\ y <> 1
                             /\ Z.of_nat i + beat_shift < n
                             /\ Z.of_nat k = (Z.of_nat i + beat_shift) mod n).
  { intros k. split.
    - intros (j & Hin & Hj). pose proof (Hacc0 j Hin) as Hr.
      rewrite (norm_index_mod n j Hr) in Hj. injection Hj as Hk.
      apply shifted_In in Hin. destruct Hin as (i0 & Hi0 & Hlt & ->).
      apply other_beats_In in Hi0. destruct Hi0 as (i & y & H0 & H1 & Hy & ->).
      exists i, y. repeat split; auto.
    - intros (i & y & H0 & H1 & Hy & Hlt & Hk).
      exists (Z.of_nat i + beat_shift).
      assert (Hin : In (Z.of_nat i + beat_shift) beat_ind).
      { apply shifted_In. exists (Z.of_nat i). repeat split; auto.
        apply other_beats_In. exists i, y. repeat split; auto. }
      split; [exact Hin |].
      rewrite (norm_index_mod n _ (Hacc0 _ Hin)). now rewrite Hk. }
  split; [exact Hl0' |]. split; [exact Hl1 |].
  split.
  { intros k. rewrite (index_put_zeros_active n _ _ Hn Hr1). apply Hd. }
  intros k. rewrite <- Hb, <- Hd.
  rewrite <- (index_put_zeros_active n _ _ Hn Hr0). split.
  - intros Hact.
    destruct (index_put_cases 1 0 _ _ _ k Hr0') as [Hsame | (j & Hin & Hj)].
    + left. unfold active in *. now rewrite <- Hsame.
    + right. rewrite Hl0 in Hj. eauto.
  - intros [Hact | (j & Hin & Hj)]; unfold active.
    + assert (H1 : nth k r0 0 = 1).
      { apply (index_put_zeros_active n _ _ Hn Hr0) in Hact.
        destruct Hact as (j & Hin & Hj).
        rewrite <- (Nat2Z.id k).
        apply (index_put_written 1 0 beat_ind (zeros n) r0 j); auto.
        now rewrite len_zeros. }
      rewrite (index_put_keeps 1 0 _ _ _ k Hr0' H1). discriminate.
    + rewrite <- (Nat2Z.id k).
      rewrite (index_put_written 1 0 dbeat_ind r0 r0' j (Z.of_nat k));
        [discriminate | exact Hr0' | exact Hin |].
      now rewrite Hl0.
Qed.

Lemma shift_targets_moves_events_witness :
  active [0; 0; 0; 1; 0; 0; 0; 1] 7
  <-> ((exists i y, nth_error (beats beat_at_start) i = Some 1
                    /\ nth_error (downbeats beat_at_start) i = Some y
                    /\ y <> 1
                    /\ Z.of_nat i + -1 < target_width beat_at_start
                    /\ Z.of_nat 7
                       = (Z.of_nat i + -1) mod target_width beat_at_start)
       \/ (exists i, nth_error (downbeats beat_at_start) i = Some 1
                     /\ Z.of_nat i + 0 < target_width beat_at_start
                     /\ Z.of_nat 7
                        = (Z.of_nat i + 0) mod target_width beat_at_start)).
Proof.
  destruct (shift_targets_moves_events 0 (-1) beat_at_start
              (mkTarget [0; 0; 0; 1; 0; 0; 0; 1] [0; 0; 0; 1; 0; 0; 0; 0]))
    as (_ & _ & _ & Hb).
  - vm_compute. reflexivity.
  - exact (Hb 7%nat).
Defined.

(** ** Phase inversion and peak normalisation *)

Lemma Qcopp_div (x m : Qc) : (- x / m)%Qc = (- (x / m))%Qc.
Proof. unfold Qcdiv. ring. Qed.

Lemma concat_map_map {A B : Type} (f : A -> B) (l : list (list A)) :
  List.concat (map (map f) l) = map f (List.concat l).
Proof. symmetry. apply concat_map. Qed.

Lemma abs_max_phase_inversion (a : audio) :
  abs_max (phase_inversion a) = abs_max a.
Proof.
  unfold abs_max, phase_inversion. rewrite concat_map_map.
  destruct (List.concat a) as [| x rest]; [reflexivity |].
  cbn [map]. rewrite Qcabs_opp, map_map.
  do 2 f_equal. apply map_ext. intros y. apply Qcabs_opp.
Qed.

(** X16: phase inversion is undone by a second inversion, leaves the peak
    as it is, and commutes with peak normalisation: normalising the
    inverted signal gives the inverted normalised signal. *)
Theorem phase_inversion_and_peak (a : audio) :
  phase_inversion (phase_inversion a) = a
  /\ abs_max (phase_inversion a) = abs_max a
  /\ forall a1, peak_normalize a = Ok a1 ->
                peak_normalize (phase_inversion a)
                = Ok (phase_inversion a1).
Proof.
  split; [| split; [apply abs_max_phase_inversion |]].
  - unfold phase_inversion. rewrite map_map.
    rewrite <- (map_id a) at 2. apply map_ext. intros row.
    rewrite map_map. rewrite <- (map_id row) at 2.
    apply map_ext. intros x. apply Qcopp_involutive.
  - intros a1. unfold peak_normalize.
    rewrite abs_max_phase_inversion.
    destruct (abs_max a) as [m |]; [| discriminate].
    rewrite !bind_Ok.
    destruct (Qc_eqb m 0%Qc); [discriminate |].
    intros [= <-]. unfold phase_inversion.
    rewrite !map_map. apply f_equal. apply map_ext. intros row.
    rewrite !map_map. apply map_ext. intros x. apply Qcopp_div.
Qed.

Lemma phase_inversion_and_peak_witness :
  peak_normalize (phase_inversion stereo_peak_4)
  = Ok (phase_inversion
          (map (map (fun x => (x / Qc_of_Z 4)%Qc)) stereo_peak_4)).
Proof.
  apply (proj2 (proj2 (phase_inversion_and_peak stereo_peak_4))).
  unfold peak_normalize.
  assert (Hm : abs_max stereo_peak_4 = Ok (Qc_of_Z 4)).
  { unfold abs_max. cbn [List.concat stereo_peak_4 app].
    f_equal. apply Qc_is_canon. vm_compute. reflexivity. }
  rewrite Hm, bind_Ok. reflexivity.
Defined.

(** X17: whenever peak normalisation returns, the signal keeps its shape
    and every sample lies in [-1, 1]. *)
Theorem peak_normalize_bounds (a a1 : audio) :
  peak_normalize a = Ok a1 ->
  map len a1 = map len a
  /\ forall row x, In row a1 -> In x row -> (- (1) <= x <= 1)%Qc.
Proof.
  unfold peak_normalize.
  destruct (abs_max a) as [m |] eqn:Hmax; [| discriminate].
  rewrite bind_Ok.
  destruct (Qc_eqb m 0%Qc) eqn:Hm0; [discriminate |].
  intros [= <-].
  destruct (abs_max_spec a m Hmax) as ((x0 & Hx0 & Hx0m) & Hall).
  assert (Hne : m <> 0%Qc).
  { intros ->. unfold Qc_eqb in Hm0. simpl in Hm0. discriminate. }
  assert (Hpos : (0 < m)%Qc).
  { destruct (Qcle_lt_or_eq 0%Qc m) as [H | H];
      [rewrite <- Hx0m; apply Qcabs_nonneg | exact H | congruence]. }
  split.
  - rewrite map_map. apply map_ext. intros row.
    unfold len. now rewrite length_map.
  - intros row x Hrow Hx.
    apply in_map_iff in Hrow. destruct Hrow as (row0 & <- & Hrow0).
    apply in_map_iff in Hx. destruct Hx as (y & <- & Hy).
    apply Qcabs_Qcle_condition.
    rewrite (Qcabs_div_pos _ _ Hpos).
    rewrite <- (Qcmult_inv_r m Hne). unfold Qcdiv.
    apply Qcmult_le_compat_r; [| now apply Qc_inv_nonneg].
    apply Hall. apply in_concat. eauto.
Qed.

Lemma peak_normalize_bounds_witness :
  map len (map (map (fun x => (x / Qc_of_Z 4)%Qc)) stereo_peak_4)
  = map len stereo_peak_4.
Proof.
  apply (peak_normalize_bounds stereo_peak_4).
  unfold peak_normalize.
  assert (Hm : abs_max stereo_peak_4 = Ok (Qc_of_Z 4)).
  { unfold abs_max. cbn [List.concat stereo_peak_4 app].
    f_equal. apply Qc_is_canon. vm_compute. reflexivity. }
  rewrite Hm, bind_Ok. reflexivity.
Defined.

(** ** Downsampling backbone: the blocks in closed form, [forward] and the
    temporal length *)

(** X18: with a positive stack_size, whenever the constructor returns,
    block n (counting from 0) has
    out_ch = channel_width + n * channel_growth,
    dilation = dilation_growth ^ (n mod stack_size) in its main
    convolution, and the padding ((kernel_size - 1) * dilation) / 2; so
    the dilations repeat with period stack_size. *)
Theorem block_closed_form (hp : hparams) (blocks : list dsTCNBlock) :
  0 < stack_size hp ->
  dsTCNModel_init hp = Ok blocks ->
  forall n b,
    nth_error blocks n = Some b ->
    out_ch b = channel_width hp + Z.of_nat n * channel_growth hp
    /\ conv_dilation (conv1 b)
       = dilation_growth hp ^ (Z.of_nat n mod stack_size hp)
    /\ conv_padding (conv1 b)
       = (hp_kernel_size hp - 1) * conv_dilation (conv1 b) / 2
    /\ forall b',
        nth_error blocks (n + Z.to_nat (stack_size hp)) = Some b' ->
        conv_dilation (conv1 b') = conv_dilation (conv1 b).
Proof.
  intros Hs Hrun.
  assert (Hblocks : blocks = map (block_at hp) (range (nblocks hp))).
  { unfold dsTCNModel_init, range in Hrun.
    rewrite build_blocks_closed_form in Hrun by (auto; lia).
    now injection Hrun as <-. }
  subst blocks.
  assert (Hat : forall n,
             out_ch (block_at hp n) = channel_width hp + n * channel_growth hp
             /\ conv1 (block_at hp n)
                = mkConv1d
                    (if n =? 0 then ninputs hp
                     else channel_width hp + (n - 1) * channel_growth hp)
                    (channel_width hp + n * channel_growth hp)
                    (hp_kernel_size hp) (hp_stride hp)
                    (dilation_growth hp ^ (n mod stack_size hp))
                    ((hp_kernel_size hp - 1)
                     * dilation_growth hp ^ (n mod stack_size hp) / 2)).
  { intros n. unfold block_at.
    match goal with
    | |- out_ch (dsTCNBlock_init ?i ?o ?k ?s ?d ?nt ?a) = _ /\ _ =>
        destruct (dsTCNBlock_init_channels i o k s d nt a)
          as (_ & Ho & _ & Hc & _)
    end.
    now rewrite Ho, Hc. }
  intros n b Hb. apply nth_error_blocks in Hb. subst b.
  destruct (Hat (Z.of_nat n)) as [Ho Hc]. rewrite Ho, Hc. cbn.
  repeat split.
  intros b' Hb'. apply nth_error_blocks in Hb'. subst b'.
  destruct (Hat (Z.of_nat (n + Z.to_nat (stack_size hp)))) as [_ Hc'].
  rewrite Hc'. cbn. f_equal.
  rewrite Nat2Z.inj_add, Z2Nat.id by lia.
  replace (Z.of_nat n + stack_size hp)
    with (Z.of_nat n + 1 * stack_size hp) by lia.
  apply Z.mod_add. lia.
Qed.

Lemma block_closed_form_witness :
  dsTCNModel_init default_hparams
  = Ok (map (block_at default_hparams) (range 8))
  /\ out_ch (block_at default_hparams 5) = 37
  /\ conv_dilation (conv1 (block_at default_hparams 5)) = 8.
Proof.
  assert (Hrun : dsTCNModel_init default_hparams
                 = Ok (map (block_at default_hparams) (range 8)))
    by (vm_compute; reflexivity).
  destruct (block_closed_form default_hparams
              (map (block_at default_hparams) (range 8))
              ltac:(reflexivity) Hrun 5%nat (block_at default_hparams 5)
              ltac:(reflexivity))
    as (Hout & Hdil & _).
  split; [exact Hrun |]. split; [exact Hout | exact Hdil].
Defined.



Section ForwardProperties.

Context {T Sh : Type}.
Variable block_forward : dsTCNBlock -> T -> result T.
Variable shape : T -> Sh.

Lemma length_activations (blocks : list dsTCNBlock) :
  forall x ys, activations block_forward blocks x = Ok ys ->
               len ys = len blocks.
Proof.
  induction blocks as [| block rest IH]; intros x ys H; simpl in H.
  - now injection H as <-.
  - destruct (block_forward block x) as [y |]; [| discriminate].
    rewrite bind_Ok in H.
    destruct (activations block_forward rest y) as [ys' |] eqn:Hys;
      [| discriminate].
    rewrite bind_Ok in H. injection H as <-.
    apply IH in Hys. unfold len in *. simpl. lia.
Qed.

Lemma forward_loop_returns (start_level base_image_level : Z)
      (blocks : list dsTCNBlock) :
  forall x i results base ys,
    activations block_forward blocks x = Ok ys ->
    forward_loop block_forward shape start_level base_image_level i
                 blocks x results base
    = Ok (results ++ skipn (Z.to_nat (start_level - i)) ys,
          match (if i <=? base_image_level - 1
                 then nth_error ys (Z.to_nat (base_image_level - 1 - i))
                 else None) with
          | Some y => Some (shape y)
          | None => base
          end).
Proof.
  induction blocks as [| block rest IH]; intros x i results base ys H;
    simpl in H.
  - injection H as <-. simpl. rewrite skipn_nil, app_nil_r.
    destruct (i <=? base_image_level - 1); [| reflexivity].
    now destruct (Z.to_nat (base_image_level - 1 - i)).
  - destruct (block_forward block x) as [y |] eqn:Hy; [| discriminate].
    rewrite bind_Ok in H.
    destruct (activations block_forward rest y) as [ys' |] eqn:Hys;
      [| discriminate].
    rewrite bind_Ok in H. injection H as <-.
    cbn [forward_loop]. rewrite Hy, bind_Ok.
    rewrite (IH _ _ _ _ _ Hys). f_equal. f_equal.
    + destruct (Z.geb_spec i start_level) as [Hge | Hlt].
      * replace (Z.to_nat (start_level - (i + 1))) with 0%nat by lia.
        replace (Z.to_nat (start_level - i)) with 0%nat by lia.
        simpl. now rewrite <- app_assoc.
      * replace (Z.to_nat (start_level - i))
          with (S (Z.to_nat (start_level - (i + 1)))) by lia.
        reflexivity.
    + destruct (Z.eqb_spec i (base_image_level - 1)) as [Heq | Hne].
      * destruct (Z.leb_spec (i + 1) (base_image_level - 1)); [lia |].
        destruct (Z.leb_spec i (base_image_level - 1)); [| lia].
        replace (Z.to_nat (base_image_level - 1 - i)) with 0%nat by lia.
        reflexivity.
      * destruct (Z.leb_spec (i + 1) (base_image_level - 1)),
          (Z.leb_spec i (base_image_level - 1)); try lia; [| reflexivity].
        replace (Z.to_nat (base_image_level - 1 - i))
          with (S (Z.to_nat (base_image_level - 1 - (i + 1)))) by lia.
        reflexivity.
Qed.

Lemma forward_loop_raises (start_level base_image_level : Z)
      (blocks : list dsTCNBlock) :
  forall x i results base e,
    activations block_forward blocks x = Raise e ->
    forward_loop block_forward shape start_level base_image_level i
                 blocks x results base
    = Raise e.
Proof.
  induction blocks as [| block rest IH]; intros x i results base e H;
    simpl in H; [discriminate |].
  cbn [forward_loop].
  destruct (block_forward block x) as [y |] eqn:Hy.
  - rewrite bind_Ok. rewrite bind_Ok in H.
    destruct (activations block_forward rest y) as [ys' |] eqn:Hys;
      [rewrite bind_Ok in H; discriminate |].
    simpl in H. injection H as <-. now apply IH.
  - simpl in *. now injection H as <-.
Qed.

(** X20: [forward] returns the activations of the last [last_count]
    blocks, in order (all of them when last_count exceeds the number of
    blocks, none when it is not positive), and the shape of the
    activation of block number base_image_level - 1, or None when there
    is no such block; when a block raises, [forward] raises the same
    exception. *)
Theorem forward_returns_last_blocks
        (blocks : list dsTCNBlock) (x : T) (last_count base_image_level : Z) :
  (forall ys,
      activations block_forward blocks x = Ok ys ->
      let results := skipn (Z.to_nat (len blocks - last_count)) ys in
      forward block_forward shape blocks x last_count base_image_level
      = Ok (results,
            if 1 <=? base_image_level
            then option_map shape
                            (nth_error ys (Z.to_nat (base_image_level - 1)))
            else None)
      /\ len results = Z.max 0 (Z.min (len blocks) last_count))
  /\ (forall e,
        activations block_forward blocks x = Raise e ->
        forward block_forward shape blocks x last_count base_image_level
        = Raise e).
Proof.
  split.
  - intros ys Hys results. unfold forward.
    rewrite (forward_loop_returns _ _ _ _ _ _ _ _ Hys).
    rewrite !Z.sub_0_r. fold results. split.
    + simpl app. f_equal. f_equal.
      destruct (Z.leb_spec 0 (base_image_level - 1)),
        (Z.leb_spec 1 base_image_level); try lia; [| reflexivity].
      now destruct (nth_error ys (Z.to_nat (base_image_level - 1))).
    + pose proof (length_activations _ _ _ Hys) as Hlen.
      pose proof (len_nonneg blocks).
      unfold results, len in *. rewrite length_skipn. lia.
  - intros e He. unfold forward. now apply forward_loop_raises.
Qed.

End ForwardProperties.

Lemma forward_returns_last_blocks_witness :
  forward block_out_length (fun l : Z => l)
          (map (block_at default_hparams) (range 8)) 16384 3 5
  = Ok ([256; 128; 64], Some 512).
Proof.
  apply (proj1 (forward_returns_last_blocks block_out_length (fun l => l)
                  (map (block_at default_hparams) (range 8)) 16384 3 5)
               [8192; 4096; 2048; 1024; 512; 256; 128; 64]).
  vm_compute. reflexivity.
Defined.
